(** * console / frame: a terminal-control layer

    A shallow embedding of the Go packages [console] (key decoder, colour
    and cursor escape strings) and [frame] (a rectangular grid of cells
    printable to a terminal), followed by the properties proved about them.

    Conventions of the embedding:
    - Go's [int] is the 64-bit two's complement integer of linux/amd64, the
      platform [termios.go] is written for.  It is carried by [Z] and every
      arithmetic operation the source performs on it is wrapped by
      [Int.wrap].  [uint8] and [rune] (= [int32]) are handled likewise.
    - [[]byte] and [string] are [string] (a sequence of 8-bit [ascii]).
    - A run-time panic is the [Panic] constructor of [Result].
    - The cells of all frames live in one memory [Mem]; a Go slice of cells
      is a pointer into it together with a length, so that two frame
      headers can share storage. *)

From Stdlib Require Import ZArith Lia String Ascii DecimalString.
From stdpp Require Import base tactics option list list_numbers strings.

Local Open Scope string_scope.
Local Open Scope Z_scope.
Local Open Scope list_scope.

(** ** Run-time panics *)

Inductive Result (A : Type) : Type :=
| Ok (a : A)
| Panic (msg : string).
Arguments Ok {A} a.
Arguments Panic {A} msg.

#[global] Instance Result_ret : MRet Result := fun A a => Ok a.
#[global] Instance Result_bind : MBind Result := fun A B f r =>
  match r with
  | Ok a => f a
  | Panic msg => Panic msg
  end.

Definition is_Ok {A} (r : Result A) : Prop :=
  match r with Ok _ => True | Panic _ => False end.

Definition is_Panic {A} (r : Result A) : Prop :=
  match r with Ok _ => False | Panic _ => True end.

(** [for _, v := range l { s = body v s }], stopping at the first panic. *)
Fixpoint foldM {A S : Type} (body : A -> S -> Result S) (l : list A) (s : S)
  : Result S :=
  match l with
  | [] => Ok s
  | a :: l' => s' ← body a s; foldM body l' s'
  end.

(** The values taken by [i] in [for i := lo; i < hi; i++]. *)
Definition range (lo hi : Z) : list Z := seqZ lo (hi - lo).

(** ** Machine integers *)

Module Int.
Definition min_int : Z := - 2 ^ 63.
Definition max_int : Z := 2 ^ 63 - 1.
Definition in_range (z : Z) : Prop := min_int <= z <= max_int.
Definition wrap (z : Z) : Z := (z + 2 ^ 63) mod 2 ^ 64 - 2 ^ 63.
Definition add (a b : Z) : Z := wrap (a + b).
Definition sub (a b : Z) : Z := wrap (a - b).
Definition mul (a b : Z) : Z := wrap (a * b).
End Int.

Module Uint8.
Definition in_range (z : Z) : Prop := 0 <= z < 256.
Definition wrap (z : Z) : Z := z mod 256.
Definition add (a b : Z) : Z := wrap (a + b).
End Uint8.

(** A byte given by its value. *)
Definition byte_of (z : Z) : ascii := ascii_of_N (Z.to_N (z mod 256)).
Definition byte_val (c : ascii) : Z := Z.of_N (N_of_ascii c).

(** ** Go standard library: strconv, unicode/utf8, image *)

Module strconv.
(** [strconv.FormatInt(i, 10)]. *)
Definition FormatInt10 (i : Z) : string := NilZero.string_of_int (Z.to_int i).
End strconv.

Module utf8.
Definition RuneError : Z := 0xFFFD.
Definition MaxRune : Z := 0x10FFFF.
Definition surrogateMin : Z := 0xD800.
Definition surrogateMax : Z := 0xDFFF.
Definition rune1Max : Z := 0x7F.
Definition rune2Max : Z := 0x7FF.
Definition rune3Max : Z := 0xFFFF.
Definition tx : Z := 0x80.
Definition t2 : Z := 0xC0.
Definition t3 : Z := 0xE0.
Definition t4 : Z := 0xF0.
Definition maskx : Z := 0x3F.

Definition enc3 (r : Z) : string :=
  String (byte_of (Z.lor t3 (Z.shiftr r 12)))
    (String (byte_of (Z.lor tx (Z.land (Z.shiftr r 6) maskx)))
       (String (byte_of (Z.lor tx (Z.land r maskx))) "")).

(** [utf8.EncodeRune]: the bytes written for the rune [r]. *)
Definition EncodeRune (r : Z) : string :=
  let i := r mod 2 ^ 32 in
  if i <=? rune1Max then String (byte_of r) ""
  else if i <=? rune2Max then
    String (byte_of (Z.lor t2 (Z.shiftr r 6)))
      (String (byte_of (Z.lor tx (Z.land r maskx))) "")
  else if (MaxRune <? i) || ((surrogateMin <=? i) && (i <=? surrogateMax))
    then enc3 RuneError
  else if i <=? rune3Max then enc3 r
  else
    String (byte_of (Z.lor t4 (Z.shiftr r 18)))
      (String (byte_of (Z.lor tx (Z.land (Z.shiftr r 12) maskx)))
         (String (byte_of (Z.lor tx (Z.land (Z.shiftr r 6) maskx)))
            (String (byte_of (Z.lor tx (Z.land r maskx))) ""))).
End utf8.

Module image.
Record Point : Type := Pt { X : Z; Y : Z }.
Record Rectangle : Type := Rectangle_ { Min : Point; Max : Point }.

(** [image.ZR], the zero rectangle. *)
Definition ZR : Rectangle := Rectangle_ (Pt 0 0) (Pt 0 0).

Definition Dx (r : Rectangle) : Z := Int.sub (X (Max r)) (X (Min r)).
Definition Dy (r : Rectangle) : Z := Int.sub (Y (Max r)) (Y (Min r)).

Definition Empty (r : Rectangle) : bool :=
  (X (Max r) <=? X (Min r)) || (Y (Max r) <=? Y (Min r)).

(** [p.In(r)]. *)
Definition In (p : Point) (r : Rectangle) : bool :=
  (X (Min r) <=? X p) && (X p <? X (Max r)) &&
  (Y (Min r) <=? Y p) && (Y p <? Y (Max r)).

(** [r.Intersect(s)]: the largest rectangle contained by both, [ZR] when
    they do not overlap.  (Older releases of Go returned an empty rectangle
    other than [ZR] when the two only touch; the callers test [Empty] on the
    result, and [In] is false in both, so nothing below depends on it.) *)
Definition Intersect (r s : Rectangle) : Rectangle :=
  let minx := if X (Min r) <? X (Min s) then X (Min s) else X (Min r) in
  let miny := if Y (Min r) <? Y (Min s) then Y (Min s) else Y (Min r) in
  let maxx := if X (Max s) <? X (Max r) then X (Max s) else X (Max r) in
  let maxy := if Y (Max s) <? Y (Max r) then Y (Max s) else Y (Max r) in
  let r' := Rectangle_ (Pt minx miny) (Pt maxx maxy) in
  if Empty r' then ZR else r'.
End image.

(** ** Package console *)

Module console.
Definition ESC_byte : ascii := "027"%char.
Definition _ESC : string := String ESC_byte "".
Definition _CSI : string := _ESC +:+ "[".

(** *** color.go *)

Definition RESET : Z := 0.
Definition BRIGHT : Z := 1.
Definition DIM : Z := 2.
Definition UNDERSCORE : Z := 4.
Definition BLINK : Z := 5.
Definition REVERSE : Z := 7.
Definition HIDDEN : Z := 8.

Definition BLACK : Z := 0.
Definition RED : Z := 1.
Definition GREEN : Z := 2.
Definition YELLOW : Z := 3.
Definition BLUE : Z := 4.
Definition MAGENTA : Z := 5.
Definition CYAN : Z := 6.
Definition WHITE : Z := 7.

Record Color : Type := Color_ { Attr : Z; Fore : Z; Back : Z }.

(** Go's [==] on the struct. *)
Definition Color_eqb (c d : Color) : bool :=
  (Attr c =? Attr d) && (Fore c =? Fore d) && (Back c =? Back d).

Definition FormatColor (attr fore back : Z) : Result string :=
  if (attr <? 0) || (8 <? attr) then
    Panic "colorString: invalid attribute"
  else if (fore <? 0) || (7 <? fore) then
    Panic "colorString: invalid foreground colour"
  else if (back <? 0) || (7 <? back) then
    Panic "colorString: invalid background colour"
  else
    let astring := strconv.FormatInt10 attr in
    let fstring := strconv.FormatInt10 (Uint8.add fore 30) in
    let bstring := strconv.FormatInt10 (Uint8.add back 40) in
    Ok (_CSI +:+ astring +:+ ";" +:+ fstring +:+ ";" +:+ bstring +:+ "m").

(** [Color.String]. *)
Definition String_ (c : Color) : Result string :=
  FormatColor (Attr c) (Fore c) (Back c).

(** *** console.go *)

Definition FormatMoveTo (line column : Z) : string :=
  let lstring := strconv.FormatInt10 line in
  let cstring := strconv.FormatInt10 column in
  _CSI +:+ lstring +:+ ";" +:+ cstring +:+ "H".

(** *** key codes and the key decoder *)

Definition K_TAB : Z := 9.
Definition K_ENTER : Z := 13.
Definition K_ESCAPE : Z := 27.
Definition K_BACKSPACE : Z := 127.
(** [K_UP = 0xE000 + iota] is the fifth constant of its block. *)
Definition K_UP : Z := 0xE000 + 4.
Definition K_DOWN : Z := 0xE000 + 5.
Definition K_RIGHT : Z := 0xE000 + 6.
Definition K_LEFT : Z := 0xE000 + 7.
Definition K_HOME : Z := 0xE000 + 8.
Definition K_END : Z := 0xE000 + 9.
Definition K_PAGEUP : Z := 0xE000 + 10.
Definition K_PAGEDOWN : Z := 0xE000 + 11.
Definition K_INSERT : Z := 0xE000 + 12.
Definition K_DELETE : Z := 0xE000 + 13.

Definition parseSS3 (buf : string) : Z :=
  match buf with
  | "" => 0
  | String b _ =>
      if Ascii.eqb b "H" then K_HOME
      else if Ascii.eqb b "F" then K_END
      else 0
  end.

Definition parseCSI (buf : string) : Z :=
  match buf with
  | "" => 0
  | _ =>
      if String.eqb buf "A" then K_UP
      else if String.eqb buf "B" then K_DOWN
      else if String.eqb buf "C" then K_RIGHT
      else if String.eqb buf "D" then K_LEFT
      else if String.eqb buf "2~" then K_INSERT
      else if String.eqb buf "3~" then K_DELETE
      else if String.eqb buf "5~" then K_PAGEUP
      else if String.eqb buf "6~" then K_PAGEDOWN
      else 0
  end.

Definition parseESC (buf : string) : Z :=
  match buf with
  | "" => K_ESCAPE
  | String b rest =>
      if Ascii.eqb b "[" then parseCSI rest
      else if Ascii.eqb b "O" then parseSS3 rest
      else 0
  end.

Definition parseKey (buf : string) : Z :=
  match buf with
  | "" => 0
  | String b rest =>
      if Ascii.eqb b ESC_byte then parseESC rest
      else byte_val b
  end.
End console.

(** ** Memory and slices of cells *)

Record Cell : Type := Cell_ { R : Z; C : console.Color }.

(** The zero value [Cell{}]. *)
Definition zeroCell : Cell := Cell_ 0 (console.Color_ 0 0 0).

(** The cells of every allocation, laid out one after the other. *)
Abbreviation Mem := (list Cell).

(** A slice header: where its first element lies in memory, and [len]. *)
Record Slice : Type := Slice_ { ptr : nat; len : Z }.

Definition nilSlice : Slice := Slice_ 0 0.

(** [make([]Cell, n)]: fresh zeroed cells; a negative length panics.  (That
    the runtime also refuses a length too large for the machine is left out:
    it only removes frames.) *)
Definition make (m : Mem) (n : Z) : Result (Mem * Slice) :=
  if n <? 0 then Panic "makeslice: len out of range"
  else Ok (m ++ replicate (Z.to_nat n) zeroCell, Slice_ (length m) n).

(** [s[i]] *)
Definition index (m : Mem) (s : Slice) (i : Z) : Result Cell :=
  if (0 <=? i) && (i <? len s) then
    match m !! (ptr s + Z.to_nat i)%nat with
    | Some c => Ok c
    | None => Panic "slice outside of memory"
    end
  else Panic "index out of range".

(** [s[i] = c] *)
Definition store (m : Mem) (s : Slice) (i : Z) (c : Cell) : Result Mem :=
  if (0 <=? i) && (i <? len s) then
    if (ptr s + Z.to_nat i <? length m)%nat then
      Ok (<[(ptr s + Z.to_nat i)%nat := c]> m)
    else Panic "slice outside of memory"
  else Panic "index out of range".

(** [s[lo:]]: the same storage, seen from element [lo] on. *)
Definition slice_from (s : Slice) (lo : Z) : Result Slice :=
  if (0 <=? lo) && (lo <=? len s) then Ok (Slice_ (ptr s + Z.to_nat lo) (len s - lo))
  else Panic "slice bounds out of range".

(** ** Package frame *)

Module frame.
Import image.

Record Frame : Type := Frame_ { Data : Slice; Bounds : Rectangle; Stride : Z }.

(** [new(Frame)] *)
Definition zeroFrame : Frame := Frame_ nilSlice ZR 0.

Definition New (m : Mem) (r : Rectangle) : Result (Mem * Frame) :=
  let w := Dx r in
  let h := Dy r in
  '(m', d) ← make m (Int.mul w h);
  Ok (m', Frame_ d r (Dx r)).

Definition CellOffset (f : Frame) (x y : Z) : Z :=
  Int.add (Int.mul (Int.sub y (Y (Min (Bounds f)))) (Stride f))
          (Int.sub x (X (Min (Bounds f)))).

Definition At (m : Mem) (f : Frame) (x y : Z) : Result Cell :=
  if negb (In (Pt x y) (Bounds f)) then Ok zeroCell
  else index m (Data f) (CellOffset f x y).

Definition Set_ (m : Mem) (f : Frame) (x y : Z) (c : Cell) : Result Mem :=
  let pt := Pt x y in
  if negb (In pt (Bounds f)) then Ok m
  else store m (Data f) (CellOffset f x y) c.

Definition FillRect (m : Mem) (f : Frame) (r : Rectangle) (c : Cell)
  : Result Mem :=
  let r := Intersect (Bounds f) r in
  if Empty r then Ok m
  else
    foldM (fun y m =>
             foldM (fun x m => Set_ m f x y c)
                   (range (X (Min r)) (X (Max r))) m)
          (range (Y (Min r)) (Y (Max r))) m.

Definition Fill (m : Mem) (f : Frame) (c : Cell) : Result Mem :=
  FillRect m f (Bounds f) c.

Definition ClearRect (m : Mem) (f : Frame) (r : Rectangle) : Result Mem :=
  FillRect m f r (Cell_ 32 (console.Color_ 0 0 0)).

Definition Clear (m : Mem) (f : Frame) : Result Mem :=
  ClearRect m f (Bounds f).

(** An argument of the variadic [vals ...interface{}]: a string, given by
    the runes that ranging over it yields, a [console.Color], or a value of
    any other dynamic type. *)
Inductive Item : Type :=
| IString (o : list Z)
| IColor (o : console.Color)
| IOther.

(** The inner loop [for _, r := range o { f.Set(x, y, Cell{r, col}); x++ }]. *)
Definition put_rune (f : Frame) (y : Z) (col : console.Color) (r : Z)
    (st : Mem * Z) : Result (Mem * Z) :=
  let '(m, x) := st in
  m' ← Set_ m f x y (Cell_ r col);
  Ok (m', Int.add x 1).

(** The loop over [vals], carrying the memory, [x] and [col]. *)
Fixpoint PutText_loop (f : Frame) (y : Z) (vals : list Item)
    (m : Mem) (x : Z) (col : console.Color) : Result Mem :=
  match vals with
  | [] => Ok m
  | v :: vals' =>
      if X (Max (Bounds f)) <=? x then Ok m
      else
        match v with
        | IString o =>
            '(m', x') ← foldM (put_rune f y col) o (m, x);
            PutText_loop f y vals' m' x' col
        | IColor o => PutText_loop f y vals' m x o
        | IOther =>
            Panic "Frame.PutText accepts data of only type string and console.Color."
        end
  end.

Definition PutText (m : Mem) (f : Frame) (x y : Z) (vals : list Item)
  : Result Mem :=
  if (y <? Y (Min (Bounds f))) || (Y (Max (Bounds f)) <=? y) then Ok m
  else PutText_loop f y vals m x (console.Color_ 0 0 0).

Definition PutTextRel (m : Mem) (f : Frame) (x y : Z) (vals : list Item)
  : Result Mem :=
  PutText m f (Int.add (X (Min (Bounds f))) x) (Int.add (Y (Min (Bounds f))) y) vals.

(** The body of the inner loop of [PrintRect]; the state is [col] and
    [printBuf]. *)
Definition print_cell (m : Mem) (f : Frame) (y x : Z)
    (st : console.Color * string) : Result (console.Color * string) :=
  let '(col, buf) := st in
  cell ← At m f x y;
  let r := if R cell =? 0 then 32 else R cell in
  '(col, buf) ← (if negb (console.Color_eqb col (C cell)) then
                   s ← console.String_ (C cell);
                   Ok (C cell, buf +:+ s)
                 else Ok (col, buf));
  Ok (col, buf +:+ utf8.EncodeRune r).

Definition print_row (m : Mem) (f : Frame) (r : Rectangle) (y : Z)
    (st : console.Color * string) : Result (console.Color * string) :=
  let '(col, buf) := st in
  foldM (print_cell m f y) (range (X (Min r)) (X (Max r)))
        (col, buf +:+ console.FormatMoveTo (Int.add y 1) (X (Min r))).

(** [PrintRect] takes the package variable [printBuf] and returns its new
    contents together with the string handed to [c.WriteString]. *)
Definition PrintRect (printBuf : string) (m : Mem) (f : Frame) (r : Rectangle)
  : Result (string * string) :=
  let col := console.Color_ 0 0 0 in
  let printBuf := substring 0 0 printBuf in
  '(_, printBuf) ← foldM (print_row m f r) (range (Y (Min r)) (Y (Max r)))
                         (col, printBuf);
  Ok (printBuf, printBuf).

Definition Print (printBuf : string) (m : Mem) (f : Frame)
  : Result (string * string) :=
  PrintRect printBuf m f (Bounds f).

Definition SubFrame (f : Frame) (r : Rectangle) : Result Frame :=
  let r := Intersect r (Bounds f) in
  if Empty r then Ok zeroFrame
  else
    d ← slice_from (Data f) (CellOffset f (X (Min r)) (Y (Min r)));
    Ok (Frame_ d r (Stride f)).

End frame.

(** ** The key decoder as the specification words it

    A second reading of the decoder, written from the description of the
    three-level dispatch (root, ESC, then CSI or SS3) with the CSI level
    given as a table; it is compared with [console.parseKey] below. *)

Module decoder_spec.
Import console.

Definition unknown : Z := 0.

Definition csi_table : list (string * Z) :=
  [ ("A", K_UP); ("B", K_DOWN); ("C", K_RIGHT); ("D", K_LEFT);
    ("2~", K_INSERT); ("3~", K_DELETE); ("5~", K_PAGEUP); ("6~", K_PAGEDOWN) ].

Fixpoint table_lookup (t : list (string * Z)) (s : string) : Z :=
  match t with
  | [] => unknown
  | (k, code) :: t' => if String.eqb s k then code else table_lookup t' s
  end.

Definition decode_ss3 (rest : string) : Z :=
  match rest with
  | String "H" _ => K_HOME
  | String "F" _ => K_END
  | _ => unknown
  end.

Definition decode_esc (rest : string) : Z :=
  match rest with
  | "" => K_ESCAPE
  | String "[" rest' => table_lookup csi_table rest'
  | String "O" rest' => decode_ss3 rest'
  | String _ _ => unknown
  end.

Definition decode (bytes : string) : Z :=
  match bytes with
  | "" => unknown
  | String b rest =>
      if byte_val b =? 0x1B then decode_esc rest else byte_val b
  end.

End decoder_spec.

(** ** Notions used to state the properties *)

(** The one-character string of the decimal digit [d]. *)
Definition digit (d : Z) : string := String (byte_of (48 + d)) "".

(** The exact (unwrapped) extent of a rectangle. *)
Definition width (r : image.Rectangle) : Z := image.X (image.Max r) - image.X (image.Min r).
Definition height (r : image.Rectangle) : Z := image.Y (image.Max r) - image.Y (image.Min r).

(** The invariant of a frame header: a row of the bounds fits in a stride,
    and the last cell of the last row lies before the end of the slice. *)
Definition frame_ok (f : frame.Frame) : Prop :=
  0 <= len (frame.Data f) <= Int.max_int /\
  (image.Empty (frame.Bounds f) = false ->
   width (frame.Bounds f) <= frame.Stride f /\
   (height (frame.Bounds f) - 1) * frame.Stride f + width (frame.Bounds f)
     <= len (frame.Data f)).

(** The invariant of the data model, as it is worded: inside the bounds
    the index of a cell lies within the length of the storage. *)
Definition storage_invariant (f : frame.Frame) : Prop :=
  forall x y, image.In (image.Pt x y) (frame.Bounds f) = true ->
    0 <= frame.CellOffset f x y < len (frame.Data f).

(** The slice lies inside the memory. *)
Definition allocated (m : Mem) (s : Slice) : Prop :=
  (ptr s + Z.to_nat (len s) <= length m)%nat.

Definition wf (m : Mem) (f : frame.Frame) : Prop :=
  frame_ok f /\ allocated m (frame.Data f).

(** The memory address of the cell that [f] shows at [(x, y)]. *)
Definition addr (f : frame.Frame) (x y : Z) : nat :=
  (ptr (frame.Data f) +
   Z.to_nat ((y - image.Y (image.Min (frame.Bounds f))) * frame.Stride f +
             (x - image.X (image.Min (frame.Bounds f)))))%nat.

(** The width, the height and the area of [r] are representable, so that
    [New] computes them without overflow. *)
Definition exact_area (r : image.Rectangle) : Prop :=
  Int.in_range (width r) /\ Int.in_range (height r) /\
  Int.in_range (width r * height r).

(** The frames obtained from a root whose area is computed exactly, by any
    chain of sub-frames. *)
Inductive reachable : frame.Frame -> Prop :=
| reachable_New m r m' f :
    exact_area r -> frame.New m r = Ok (m', f) -> reachable f
| reachable_SubFrame f r g :
    reachable f -> frame.SubFrame f r = Ok g -> reachable g.

(** ** [PrintRect] as a sequence of events

    The same two loops as [frame.PrintRect], recording each append to
    [printBuf] as an event instead of as bytes: a cursor move, a colour
    change (with the escape string [Color.String] returned for it) or the
    glyph of the cell read at [(x, y)]. *)

Inductive Event : Type :=
| EvMoveTo (line column : Z)
| EvColor (c : console.Color) (code : string)
| EvCell (x y : Z) (cell : Cell).

(** The rune printed for a cell: a space stands for the rune 0. *)
Definition glyph (cell : Cell) : Z := if R cell =? 0 then 32 else R cell.

Definition event_bytes (e : Event) : string :=
  match e with
  | EvMoveTo line column => console.FormatMoveTo line column
  | EvColor _ code => code
  | EvCell _ _ cell => utf8.EncodeRune (glyph cell)
  end.

Fixpoint trace_bytes (evs : list Event) : string :=
  match evs with
  | [] => ""
  | e :: evs' => event_bytes e +:+ trace_bytes evs'
  end.

Definition print_cell_events (m : Mem) (f : frame.Frame) (y x : Z)
    (st : console.Color * list Event) : Result (console.Color * list Event) :=
  let '(col, evs) := st in
  cell ← frame.At m f x y;
  '(col, evs) ← (if negb (console.Color_eqb col (C cell)) then
                   s ← console.String_ (C cell);
                   Ok (C cell, evs ++ [EvColor (C cell) s])
                 else Ok (col, evs));
  Ok (col, evs ++ [EvCell x y cell]).

Definition print_row_events (m : Mem) (f : frame.Frame) (r : image.Rectangle)
    (y : Z) (st : console.Color * list Event)
  : Result (console.Color * list Event) :=
  let '(col, evs) := st in
  foldM (print_cell_events m f y)
        (range (image.X (image.Min r)) (image.X (image.Max r)))
        (col, evs ++ [EvMoveTo (Int.add y 1) (image.X (image.Min r))]).

Definition PrintRect_events (m : Mem) (f : frame.Frame) (r : image.Rectangle)
  : Result (list Event) :=
  '(_, evs) ← foldM (print_row_events m f r)
                    (range (image.Y (image.Min r)) (image.Y (image.Max r)))
                    (console.Color_ 0 0 0, []);
  Ok evs.

(** The colour in force after the events [evs], starting from [col]. *)
Fixpoint last_color_from (col : console.Color) (evs : list Event)
  : console.Color :=
  match evs with
  | [] => col
  | EvColor c _ :: evs' => last_color_from c evs'
  | _ :: evs' => last_color_from col evs'
  end.

(** The colour last emitted in [evs]; the zero colour when none was. *)
Definition last_color (evs : list Event) : console.Color :=
  last_color_from (console.Color_ 0 0 0) evs.

(** The cursor moves of a trace, and the coordinates of its cells. *)
Fixpoint moves_of (evs : list Event) : list (Z * Z) :=
  match evs with
  | [] => []
  | EvMoveTo line column :: evs' => (line, column) :: moves_of evs'
  | _ :: evs' => moves_of evs'
  end.

Fixpoint cell_coords (evs : list Event) : list (Z * Z) :=
  match evs with
  | [] => []
  | EvCell x y _ :: evs' => (x, y) :: cell_coords evs'
  | _ :: evs' => cell_coords evs'
  end.

(** Run-length compression of colours: a trace grows by a cursor move, by a
    cell whose colour is the one last emitted, or by a colour change
    followed by a cell whose colour differs from the one last emitted. *)
Inductive run_length (m : Mem) (f : frame.Frame) : list Event -> Prop :=
| run_nil : run_length m f []
| run_move evs line column :
    run_length m f evs -> run_length m f (evs ++ [EvMoveTo line column])
| run_same evs x y cell :
    run_length m f evs ->
    frame.At m f x y = Ok cell ->
    C cell = last_color evs ->
    run_length m f (evs ++ [EvCell x y cell])
| run_change evs x y cell code :
    run_length m f evs ->
    frame.At m f x y = Ok cell ->
    C cell <> last_color evs ->
    console.String_ (C cell) = Ok code ->
    run_length m f (evs ++ [EvColor (C cell) code; EvCell x y cell]).

(** The events of the row [y] of the rectangle [r]: a cursor move to line
    [y + 1], then the cells [(x, y)] for the columns of [r] from left to
    right, with colour changes in between and no other move. *)
Definition row_shape (r : image.Rectangle) (y : Z) (row : list Event) : Prop :=
  exists column cells,
    row = EvMoveTo (y + 1) column :: cells /\
    cell_coords cells
      = map (fun x => (x, y)) (range (image.X (image.Min r)) (image.X (image.Max r))) /\
    moves_of cells = [].

(** ** The running cursor of [PutText] *)

(** [x] after [x++] for every rune of [o]. *)
Definition advance (x : Z) (o : list Z) : Z :=
  fold_left (fun x _ => Int.add x 1) o x.

Definition advance_item (x : Z) (v : frame.Item) : Z :=
  match v with
  | frame.IString o => advance x o
  | _ => x
  end.

(** The cursor column once the items [vals] have been written from [x]. *)
Definition cursor_after (x : Z) (vals : list frame.Item) : Z :=
  fold_left advance_item vals x.

Definition PutText_msg : string :=
  "Frame.PutText accepts data of only type string and console.Color.".

(** Some item of [vals] that is neither a string nor a colour is met with
    the cursor, started at [x], left of [bound] at it and before it. *)
Definition other_met (bound x : Z) (vals : list frame.Item) : Prop :=
  exists i, vals !! i = Some frame.IOther /\
    forall j, (j <= i)%nat -> cursor_after x (take j vals) < bound.

(** An item that is neither a string nor a colour is reached: the row is
    within the vertical bounds, and the cursor was left of the right bound
    before that item and before each item that precedes it. *)
Definition reaches_other (f : frame.Frame) (x y : Z) (vals : list frame.Item)
  : Prop :=
  image.Y (image.Min (frame.Bounds f)) <= y < image.Y (image.Max (frame.Bounds f)) /\
  other_met (image.X (image.Max (frame.Bounds f))) x vals.

(** ** Relations and loop invariants used in the proofs *)

(** Two loops that keep their states related end in related states, or
    panic alike. *)
Definition Result_rel {S T} (Rel : S -> T -> Prop)
    (r1 : Result S) (r2 : Result T) : Prop :=
  match r1, r2 with
  | Ok s, Ok t => Rel s t
  | Panic p, Panic q => p = q
  | _, _ => False
  end.

(** The buffer holds the bytes of the events recorded so far. *)
Definition buf_of_events (st : console.Color * string) (st' : console.Color * list Event) : Prop :=
  st.1 = st'.1 /\ st.2 = trace_bytes st'.2.

(** The state of the scan of one row, after the columns [xs]. *)
Definition row_inv (m : Mem) (f : frame.Frame) (evs0 : list Event) (y line column : Z)
    (xs : list Z) (st : console.Color * list Event) : Prop :=
  exists cells,
    st.2 = evs0 ++ EvMoveTo line column :: cells /\
    cell_coords cells = map (fun x => (x, y)) xs /\
    moves_of cells = [] /\
    run_length m f st.2 /\ st.1 = last_color st.2.

(** The state of [PrintRect] after the rows [ys]. *)
Definition rect_inv (m : Mem) (f : frame.Frame) (r : image.Rectangle)
    (ys : list Z) (st : console.Color * list Event) : Prop :=
  exists rows,
    st.2 = concat rows /\ Forall2 (row_shape r) ys rows /\
    run_length m f st.2 /\ st.1 = last_color st.2.

(** ** termios.go: raw mode

    The flag masks and the indices of the control characters are those of
    Go's [syscall] package for linux/amd64; [Termios] is its struct, with
    the 32 control characters as a list. *)

Module syscall.
Definition BRKINT : Z := 0x2.
Definition ICRNL : Z := 0x100.
Definition INPCK : Z := 0x10.
Definition ISTRIP : Z := 0x20.
Definition IXON : Z := 0x400.
Definition OPOST : Z := 0x1.
Definition ECHO : Z := 0x8.
Definition ICANON : Z := 0x2.
Definition ISIG : Z := 0x1.
Definition IEXTEN : Z := 0x8000.
Definition CSIZE : Z := 0x30.
Definition PARENB : Z := 0x100.
Definition CS8 : Z := 0x30.
Definition VTIME : Z := 5.
Definition VMIN : Z := 6.

Record Termios : Type := Termios_ {
  Iflag : Z; Oflag : Z; Cflag : Z; Lflag : Z;
  Line : Z; Cc : list Z; Ispeed : Z; Ospeed : Z
}.
End syscall.

Module Uint32.
Definition in_range (z : Z) : Prop := 0 <= z < 2 ^ 32.
(** [^x] on a [uint32]. *)
Definition not (x : Z) : Z := Z.lxor x (Z.ones 32).
End Uint32.

Module termios.
Import syscall.

Definition iflag_mask : Z :=
  Z.lor BRKINT (Z.lor ICRNL (Z.lor INPCK (Z.lor ISTRIP IXON))).
Definition oflag_mask : Z := OPOST.
Definition lflag_mask : Z := Z.lor ECHO (Z.lor ICANON (Z.lor ISIG IEXTEN)).
Definition cflag_mask : Z := Z.lor CSIZE PARENB.

Definition rawMode (t : Termios) : Termios :=
  let iflag := Z.land (Iflag t) (Uint32.not iflag_mask) in
  let oflag := Z.land (Oflag t) (Uint32.not oflag_mask) in
  let lflag := Z.land (Lflag t) (Uint32.not lflag_mask) in
  let cflag := Z.land (Cflag t) (Uint32.not cflag_mask) in
  let cflag := Z.lor cflag CS8 in
  let cc := <[Z.to_nat VMIN := 1]> (Cc t) in
  let cc := <[Z.to_nat VTIME := 0]> cc in
  Termios_ iflag oflag cflag lflag (Line t) cc (Ispeed t) (Ospeed t).
End termios.

(** ** One frame seen through another

    [shows f g]: every cell of [g] is the cell of [f] at the same
    coordinates, as for a frame and itself or a frame and its sub-frames. *)
Definition shows (f g : frame.Frame) : Prop :=
  frame_ok g /\
  (forall m, allocated m (frame.Data f) -> allocated m (frame.Data g)) /\
  forall x y, image.In (image.Pt x y) (frame.Bounds g) = true ->
    image.In (image.Pt x y) (frame.Bounds f) = true /\ addr g x y = addr f x y.

(** ** The text [PutText] writes *)

(** The cells written for the items [vals], in order, [col] being the
    colour in force. *)
Fixpoint styled (col : console.Color) (vals : list frame.Item) : list Cell :=
  match vals with
  | [] => []
  | frame.IString o :: vals' => map (fun r => Cell_ r col) o ++ styled col vals'
  | frame.IColor c :: vals' => styled c vals'
  | frame.IOther :: vals' => styled col vals'
  end.

(** The cell of [txt], laid out from [(x, y)] to the right, that falls on
    the point [(x', y')] of the frame, if any. *)
Definition text_at (f : frame.Frame) (x y : Z) (txt : list Cell) (x' y' : Z)
  : option Cell :=
  if (y' =? y) && (x <=? x') && image.In (image.Pt x' y') (frame.Bounds f)
  then txt !! Z.to_nat (x' - x) else None.

(** [m'] is [m] with [txt] laid out from [(x, y)], as read through [f]. *)
Definition texted (f : frame.Frame) (m m' : Mem) (x y : Z) (txt : list Cell)
  : Prop :=
  forall x' y',
    frame.At m' f x' y' =
      match text_at f x y txt x' y' with
      | Some c => Ok c
      | None => frame.At m f x' y'
      end.

(** ** Shapes of traces and key codes *)

(** An event of a render that shows nothing: a cursor move or a space. *)
Definition blank_event (e : Event) : Prop :=
  match e with
  | EvMoveTo _ _ => True
  | EvColor _ _ => False
  | EvCell _ _ cell => glyph cell = 32
  end.

(** The codes of the keys the decoder names. *)
Definition named_keys : list Z :=
  [ console.K_UP; console.K_DOWN; console.K_RIGHT; console.K_LEFT;
    console.K_HOME; console.K_END; console.K_PAGEUP; console.K_PAGEDOWN;
    console.K_INSERT; console.K_DELETE ].

(** ** Concrete frames used in the examples *)

(** The root frame of bounds (0,0)-(3,2), and its memory. *)
Definition demo_rect : image.Rectangle :=
  image.Rectangle_ (image.Pt 0 0) (image.Pt 3 2).
Definition demo_mem : Mem := replicate 6 zeroCell.
Definition demo_frame : frame.Frame := frame.Frame_ (Slice_ 0 6) demo_rect 3.

(** 'X' in red on black. *)
Definition red_X : Cell := Cell_ 88 (console.Color_ 0 console.RED console.BLACK).

(** The scenario: a frame of bounds (0,0)-(3,2) is cleared, the cell (1,1)
    is set to a red 'X', and the full bounds are printed. *)
Definition scenario_output : Result string :=
  '(m, f) ← frame.New [] demo_rect;
  m ← frame.Clear m f;
  m ← frame.Set_ m f 1 1 red_X;
  '(_, out) ← frame.PrintRect "" m f (frame.Bounds f);
  Ok out.

(** The rows [PrintRect] would emit if it clipped the rectangle to the
    bounds of the frame and sent the start column in 1-indexed form. *)
Definition rows_as_stated (f : frame.Frame) (r : image.Rectangle)
    (evs : list Event) : Prop :=
  let r' := image.Intersect r (frame.Bounds f) in
  moves_of evs =
    map (fun y => (y + 1, image.X (image.Min r') + 1))
        (range (image.Y (image.Min r')) (image.Y (image.Max r'))).

(** A colour every component of which is in range. *)
Definition valid_color (c : console.Color) : Prop :=
  0 <= console.Attr c <= 8 /\ 0 <= console.Fore c <= 7 /\
  0 <= console.Back c <= 7.

(** * Properties *)

(** ** Key decoder *)

Section KeyDecoder.
Import console decoder_spec.

Ltac split_byte b := destruct b as [[] [] [] [] [] [] [] []].

Lemma parseSS3_decode rest : parseSS3 rest = decode_ss3 rest.
Proof. destruct rest as [|b rest]; [reflexivity|]. split_byte b; reflexivity. Qed.

Lemma parseCSI_decode rest : parseCSI rest = table_lookup csi_table rest.
Proof. destruct rest; reflexivity. Qed.

Lemma parseESC_decode rest : parseESC rest = decode_esc rest.
Proof.
  destruct rest as [|b rest]; [reflexivity|].
  split_byte b; cbn [parseESC decode_esc Ascii.eqb Bool.eqb];
    first [ apply parseCSI_decode | apply parseSS3_decode | reflexivity ].
Qed.

(** C3: on every byte sequence [parseKey] is the three-level dispatch of the
    specification: a first byte other than ESC is its own ordinal, a lone
    ESC is the Escape key, ESC '[' looks the remaining bytes up in the CSI
    table, ESC 'O' maps 'H' and 'F' to Home and End, and everything else,
    the empty input included, is the unknown code 0.  The decoder is a total
    function, so no input makes it fail. *)
Theorem parseKey_decode (buf : string) :
  parseKey buf = decode buf.
Proof.
  destruct buf as [|b rest]; [reflexivity|].
  unfold parseKey, decode.
  split_byte b; cbn [Ascii.eqb Bool.eqb ESC_byte andb];
    first [ apply parseESC_decode | reflexivity ].
Qed.

End KeyDecoder.

Example parseKey_samples :
  console.parseKey "" = 0 /\
  console.parseKey "a" = 97 /\
  console.parseKey console._ESC = console.K_ESCAPE /\
  console.parseKey (console._CSI +:+ "A") = console.K_UP /\
  console.parseKey (console._CSI +:+ "6~") = console.K_PAGEDOWN /\
  console.parseKey (console._CSI +:+ "6") = 0 /\
  console.parseKey (console._ESC +:+ "OH") = console.K_HOME /\
  console.parseKey (console._ESC +:+ "OZ") = 0.
Proof. repeat split; reflexivity. Qed.

(** ** Colours *)

Section Colour.
Import console.

Lemma FormatInt10_digit d : 0 <= d <= 9 -> strconv.FormatInt10 d = digit d.
Proof.
  intros H.
  assert (d = 0 \/ d = 1 \/ d = 2 \/ d = 3 \/ d = 4 \/ d = 5 \/ d = 6 \/
          d = 7 \/ d = 8 \/ d = 9) as Hd by lia.
  repeat (destruct Hd as [-> | Hd]; [reflexivity|]). subst d; reflexivity.
Qed.

Lemma FormatInt10_two_digits t d :
  1 <= t <= 9 -> 0 <= d <= 9 ->
  strconv.FormatInt10 (10 * t + d) = digit t +:+ digit d.
Proof.
  intros Ht Hd.
  assert (t = 1 \/ t = 2 \/ t = 3 \/ t = 4 \/ t = 5 \/ t = 6 \/
          t = 7 \/ t = 8 \/ t = 9) as Ht' by lia.
  assert (d = 0 \/ d = 1 \/ d = 2 \/ d = 3 \/ d = 4 \/ d = 5 \/ d = 6 \/
          d = 7 \/ d = 8 \/ d = 9) as Hd' by lia.
  repeat (destruct Ht' as [-> | Ht']; [|]);
    try subst t;
    repeat (destruct Hd' as [-> | Hd']; [reflexivity|]); subst d; reflexivity.
Qed.

Lemma FormatColor_in_range a f b :
  0 <= a <= 8 -> 0 <= f <= 7 -> 0 <= b <= 7 ->
  FormatColor a f b =
    Ok (_CSI +:+ strconv.FormatInt10 a +:+ ";" +:+ strconv.FormatInt10 (30 + f)
             +:+ ";" +:+ strconv.FormatInt10 (40 + b) +:+ "m").
Proof.
  intros Ha Hf Hb. unfold FormatColor, Uint8.add, Uint8.wrap.
  rewrite !Z.mod_small by lia.
  replace (a <? 0) with false by lia. replace (8 <? a) with false by lia.
  replace (f <? 0) with false by lia. replace (7 <? f) with false by lia.
  replace (b <? 0) with false by lia. replace (7 <? b) with false by lia.
  cbn [orb]. by rewrite (Z.add_comm f), (Z.add_comm b).
Qed.

Lemma FormatColor_out_of_range a f b :
  ~ (0 <= a <= 8 /\ 0 <= f <= 7 /\ 0 <= b <= 7) -> is_Panic (FormatColor a f b).
Proof.
  intros H. unfold FormatColor.
  destruct (a <? 0) eqn:?, (8 <? a) eqn:?; cbn [orb]; try exact I.
  destruct (f <? 0) eqn:?, (7 <? f) eqn:?; cbn [orb]; try exact I.
  destruct (b <? 0) eqn:?, (7 <? b) eqn:?; cbn [orb]; try exact I.
  exfalso. apply H. lia.
Qed.

(** C9: rendering a colour whose components are [uint8] values panics
    exactly when a component is out of range (attribute above 8, foreground
    or background above 7), so nothing is clamped; for an in-range triple
    the result is ESC [ a ; 30+f ; 40+b m, the numbers in decimal, which is
    the digit a, then '3' and the digit f, then '4' and the digit b. *)
Theorem Color_String_spec (c : Color) :
  Uint8.in_range (Attr c) -> Uint8.in_range (Fore c) -> Uint8.in_range (Back c) ->
  (is_Panic (String_ c) <-> ~ (Attr c <= 8 /\ Fore c <= 7 /\ Back c <= 7)) /\
  (Attr c <= 8 -> Fore c <= 7 -> Back c <= 7 ->
   String_ c =
     Ok (_ESC +:+ "[" +:+ strconv.FormatInt10 (Attr c)
              +:+ ";" +:+ strconv.FormatInt10 (30 + Fore c)
              +:+ ";" +:+ strconv.FormatInt10 (40 + Back c) +:+ "m") /\
   String_ c =
     Ok (_ESC +:+ "[" +:+ digit (Attr c)
              +:+ ";3" +:+ digit (Fore c)
              +:+ ";4" +:+ digit (Back c) +:+ "m")).
Proof.
  destruct c as [a f b]; cbn [Attr Fore Back]. unfold Uint8.in_range, String_.
  cbn [Attr Fore Back]. intros Ha Hf Hb. split.
  - split.
    + intros HP [Ha8 [Hf7 Hb7]].
      rewrite FormatColor_in_range in HP by lia. exact HP.
    + intros H. apply FormatColor_out_of_range. lia.
  - intros Ha8 Hf7 Hb7.
    rewrite FormatColor_in_range by lia. split; [reflexivity|].
    rewrite (FormatInt10_digit a) by lia.
    change 30 with (10 * 3). change 40 with (10 * 4).
    rewrite !FormatInt10_two_digits by lia. reflexivity.
Qed.

Lemma Color_String_spec_witness :
  console.String_ (console.Color_ 0 console.RED console.BLACK)
  = Ok (console._ESC +:+ "[0;31;40m").
Proof.
  pose proof (Color_String_spec (Color_ 0 RED BLACK)) as H.
  cbn [Attr Fore Back] in H. unfold Uint8.in_range, RED, BLACK in H.
  destruct H as [_ H]; [lia | lia | lia |].
  destruct H as [_ H]; [lia | lia | lia |]. exact H.
Defined.

End Colour.

(** ** Machine arithmetic and rectangles *)

Section Geometry.
Import image.

Lemma two_63 : 2 ^ 63 = 9223372036854775808.
Proof. reflexivity. Qed.

Lemma two_64 : 2 ^ 64 = 18446744073709551616.
Proof. reflexivity. Qed.

Lemma max_int_val : Int.max_int = 9223372036854775807.
Proof. reflexivity. Qed.

Lemma min_int_val : Int.min_int = -9223372036854775808.
Proof. reflexivity. Qed.

Lemma wrap_small z : Int.in_range z -> Int.wrap z = z.
Proof.
  unfold Int.in_range, Int.wrap. rewrite max_int_val, min_int_val, two_63, two_64.
  intros H. rewrite Z.mod_small by lia. lia.
Qed.

Lemma In_spec p r :
  In p r = true <->
  X (Min r) <= X p < X (Max r) /\ Y (Min r) <= Y p < Y (Max r).
Proof. unfold In. rewrite !andb_true_iff. lia. Qed.

Lemma In_false p r :
  In p r = false <->
  ~ (X (Min r) <= X p < X (Max r) /\ Y (Min r) <= Y p < Y (Max r)).
Proof. rewrite <- In_spec. destruct (In p r); split; congruence. Qed.

Lemma Empty_false r :
  Empty r = false <-> X (Min r) < X (Max r) /\ Y (Min r) < Y (Max r).
Proof. unfold Empty. rewrite orb_false_iff. lia. Qed.

Lemma Empty_true r :
  Empty r = true <-> X (Max r) <= X (Min r) \/ Y (Max r) <= Y (Min r).
Proof. unfold Empty. rewrite orb_true_iff. lia. Qed.

Lemma In_nonempty p r : In p r = true -> Empty r = false.
Proof. rewrite In_spec, Empty_false. lia. Qed.

(** A point is in the intersection exactly when it is in both. *)
Lemma In_Intersect p r s :
  In p (Intersect r s) = In p r && In p s.
Proof.
  apply eq_true_iff_eq. rewrite andb_true_iff, !In_spec.
  unfold Intersect.
  destruct (Empty _) eqn:HE.
  - apply Empty_true in HE. cbn [X Y Min Max ZR] in *.
    repeat match goal with
           | H : context [if ?b then _ else _] |- _ => destruct b eqn:?
           end; lia.
  - cbn [X Y Min Max].
    repeat match goal with
           | |- context [if ?b then _ else _] => destruct b eqn:?
           end; lia.
Qed.

Lemma Intersect_comm r s : Intersect r s = Intersect s r.
Proof.
  unfold Intersect.
  assert (forall a b : Z, (if a <? b then b else a) = (if b <? a then a else b)) as E1.
  { intros a b. destruct (a <? b) eqn:?, (b <? a) eqn:?; lia. }
  assert (forall a b : Z, (if b <? a then b else a) = (if a <? b then a else b)) as E2.
  { intros a b. destruct (a <? b) eqn:?, (b <? a) eqn:?; lia. }
  rewrite (E1 (X (Min r))), (E1 (Y (Min r))), (E2 (X (Max r))), (E2 (Y (Max r))).
  reflexivity.
Qed.

Lemma range_elem lo hi z : z ∈ range lo hi <-> lo <= z < hi.
Proof. unfold range. rewrite elem_of_seqZ. lia. Qed.

End Geometry.

(** ** Point access: [At] and [Set] *)

Section PointAccess.
Import image frame.

Lemma frame_ok_geom f x y :
  frame_ok f -> In (Pt x y) (Bounds f) = true ->
  let dx := x - X (Min (Bounds f)) in
  let dy := y - Y (Min (Bounds f)) in
  0 <= dx /\ 0 <= dy /\ 0 <= dy * Stride f /\ dx < Stride f /\
  dy * Stride f + dx < len (Data f) /\ len (Data f) <= Int.max_int.
Proof.
  intros [Hlen Hg] HIn. specialize (Hg (In_nonempty _ _ HIn)).
  apply In_spec in HIn. cbn [X Y] in HIn. unfold width, height in Hg.
  intros dx dy. subst dx dy. repeat split; try lia; nia.
Qed.

(** Inside the bounds of a well-formed frame no operation of [CellOffset]
    overflows, and the offset is a valid index of [Data]. *)
Lemma CellOffset_exact f x y :
  frame_ok f -> In (Pt x y) (Bounds f) = true ->
  CellOffset f x y
    = (y - Y (Min (Bounds f))) * Stride f + (x - X (Min (Bounds f))) /\
  0 <= CellOffset f x y < len (Data f).
Proof.
  intros Hok HIn. pose proof (frame_ok_geom f x y Hok HIn) as H.
  cbv zeta in H. rewrite max_int_val in H.
  unfold CellOffset, Int.add, Int.mul, Int.sub.
  assert (Hr : forall z, 0 <= z < len (Data f) -> Int.in_range z).
  { intros z Hz. unfold Int.in_range. rewrite max_int_val, min_int_val. lia. }
  rewrite (wrap_small (y - _)) by (apply Hr; nia).
  rewrite (wrap_small (x - _)) by (apply Hr; nia).
  rewrite (wrap_small (_ * _)) by (apply Hr; nia).
  rewrite wrap_small by (apply Hr; nia).
  split; [reflexivity | nia].
Qed.

Lemma addr_lt m f x y :
  wf m f -> In (Pt x y) (Bounds f) = true -> (addr f x y < length m)%nat.
Proof.
  intros [Hok Hal] HIn. pose proof (frame_ok_geom f x y Hok HIn) as H.
  cbv zeta in H. unfold allocated in Hal. unfold addr. lia.
Qed.

(** Distinct points of a well-formed frame have distinct cells. *)
Lemma addr_inj f x y x' y' :
  frame_ok f ->
  In (Pt x y) (Bounds f) = true -> In (Pt x' y') (Bounds f) = true ->
  addr f x y = addr f x' y' -> x = x' /\ y = y'.
Proof.
  intros Hok H1 H2 E.
  pose proof (frame_ok_geom f x y Hok H1) as G1.
  pose proof (frame_ok_geom f x' y' Hok H2) as G2.
  cbv zeta in G1, G2. unfold addr in E.
  assert ((y - Y (Min (Bounds f))) * Stride f + (x - X (Min (Bounds f)))
          = (y' - Y (Min (Bounds f))) * Stride f + (x' - X (Min (Bounds f))))
    as E' by lia.
  assert (y - Y (Min (Bounds f)) = y' - Y (Min (Bounds f))) by nia.
  split; nia.
Qed.

Lemma At_outside m f x y :
  In (Pt x y) (Bounds f) = false -> At m f x y = Ok zeroCell.
Proof. intros H. unfold At. by rewrite H. Qed.

Lemma Set_outside m f x y c :
  In (Pt x y) (Bounds f) = false -> Set_ m f x y c = Ok m.
Proof. intros H. unfold Set_. by rewrite H. Qed.

Lemma At_inside m f x y :
  wf m f -> In (Pt x y) (Bounds f) = true ->
  exists c, m !! addr f x y = Some c /\ At m f x y = Ok c.
Proof.
  intros Hwf HIn. pose proof (addr_lt m f x y Hwf HIn) as Hlt.
  destruct Hwf as [Hok Hal].
  destruct (CellOffset_exact f x y Hok HIn) as [E Hr].
  destruct (lookup_lt_is_Some_2 m (addr f x y) Hlt) as [c Hc].
  exists c. split; [exact Hc|].
  unfold At, index. rewrite HIn. cbn [negb].
  replace (0 <=? CellOffset f x y) with true by lia.
  replace (CellOffset f x y <? len (Data f)) with true by lia.
  cbn [andb]. rewrite E. unfold addr in Hc. by rewrite Hc.
Qed.

Lemma Set_inside m f x y c :
  wf m f -> In (Pt x y) (Bounds f) = true ->
  Set_ m f x y c = Ok (<[addr f x y := c]> m).
Proof.
  intros Hwf HIn. pose proof (addr_lt m f x y Hwf HIn) as Hlt.
  destruct Hwf as [Hok Hal].
  destruct (CellOffset_exact f x y Hok HIn) as [E Hr].
  unfold Set_, store. rewrite HIn. cbn [negb].
  replace (0 <=? CellOffset f x y) with true by lia.
  replace (CellOffset f x y <? len (Data f)) with true by lia.
  cbn [andb]. rewrite E. unfold addr in Hlt |- *.
  apply Nat.ltb_lt in Hlt. by rewrite Hlt.
Qed.

Lemma wf_insert m f a c : wf m f -> wf (<[a := c]> m) f.
Proof.
  intros [Hok Hal]. split; [exact Hok|].
  unfold allocated in *. by rewrite length_insert.
Qed.

(** What a write through [f] does to what is read through [f]. *)
Lemma Set_At m f x y c :
  wf m f ->
  exists m', Set_ m f x y c = Ok m' /\ wf m' f /\ length m' = length m /\
    forall x' y',
      At m' f x' y' =
        if In (Pt x y) (Bounds f) && (x' =? x) && (y' =? y) then Ok c
        else At m f x' y'.
Proof.
  intros Hwf. destruct (In (Pt x y) (Bounds f)) eqn:HIn.
  - exists (<[addr f x y := c]> m). rewrite Set_inside by done.
    split; [done|]. split; [by apply wf_insert|].
    split; [by rewrite length_insert|].
    intros x' y'. cbn [andb].
    destruct (In (Pt x' y') (Bounds f)) eqn:HIn'.
    + destruct (At_inside _ f x' y' (wf_insert m f (addr f x y) c Hwf) HIn')
        as (c' & Hc' & ->).
      destruct (At_inside m f x' y' Hwf HIn') as (c0 & Hc0 & ->).
      destruct ((x' =? x) && (y' =? y)) eqn:Heq.
      * apply andb_true_iff in Heq. destruct Heq as [Hx Hy].
        apply Z.eqb_eq in Hx, Hy. subst x' y'.
        rewrite list_lookup_insert_eq in Hc' by (by eapply addr_lt).
        congruence.
      * rewrite list_lookup_insert_ne in Hc'; [congruence|].
        intros E. destruct Hwf as [Hok _].
        destruct (addr_inj f x y x' y' Hok HIn HIn' E) as [-> ->].
        rewrite !Z.eqb_refl in Heq. discriminate.
    + rewrite !At_outside by done.
      destruct ((x' =? x) && (y' =? y)) eqn:Heq; [|done].
      apply andb_true_iff in Heq. destruct Heq as [Hx Hy].
      apply Z.eqb_eq in Hx, Hy. subst x' y'. congruence.
  - exists m. rewrite Set_outside by done. cbn [andb]. done.
Qed.

Lemma frame_ok_storage_invariant f : frame_ok f -> storage_invariant f.
Proof. intros Hok x y HIn. by destruct (CellOffset_exact f x y Hok HIn). Qed.

(** A write through a frame whose indices are in range succeeds, keeps the
    size of the memory, and is read back. *)
Lemma Set_in_range m f x y c :
  allocated m (Data f) -> storage_invariant f ->
  exists m', Set_ m f x y c = Ok m' /\ length m' = length m /\
    (In (Pt x y) (Bounds f) = true -> At m' f x y = Ok c) /\
    (In (Pt x y) (Bounds f) = false -> m' = m).
Proof.
  intros Hal Hinv. destruct (In (Pt x y) (Bounds f)) eqn:HIn.
  - specialize (Hinv x y HIn). unfold allocated in Hal.
    assert (Hlt : (ptr (Data f) + Z.to_nat (CellOffset f x y) < length m)%nat)
      by lia.
    exists (<[(ptr (Data f) + Z.to_nat (CellOffset f x y))%nat := c]> m).
    unfold Set_, At, store, index. rewrite HIn. cbn [negb].
    replace (0 <=? CellOffset f x y) with true by lia.
    replace (CellOffset f x y <? len (Data f)) with true by lia.
    cbn [andb]. rewrite (proj2 (Nat.ltb_lt _ _) Hlt).
    split; [reflexivity|]. split; [by rewrite length_insert|].
    split; [|discriminate]. intros _.
    by rewrite list_lookup_insert_eq.
  - exists m. rewrite Set_outside by done. split; [reflexivity|].
    split; [reflexivity|]. split; [discriminate|done].
Qed.

(** C6: on a frame whose storage indices are in range, a cell written with
    [Set] inside the bounds is the cell [At] reads back; outside the bounds
    [At] returns the zero [Cell{}] whatever the memory holds, and [Set]
    changes nothing. *)
Theorem At_Set_roundtrip m f x y c :
  allocated m (Data f) -> storage_invariant f ->
  (In (Pt x y) (Bounds f) = true ->
   exists m', Set_ m f x y c = Ok m' /\ At m' f x y = Ok c) /\
  (In (Pt x y) (Bounds f) = false ->
   (forall m0, At m0 f x y = Ok zeroCell) /\
   Set_ m f x y c = Ok m).
Proof.
  intros Hal Hinv. split.
  - intros HIn.
    destruct (Set_in_range m f x y c Hal Hinv) as (m' & HS & _ & HA & _).
    exists m'. split; [exact HS|]. by apply HA.
  - intros HIn. split.
    + intros m0. by apply At_outside.
    + by apply Set_outside.
Qed.

End PointAccess.

(** ** Sub-frames and shared storage *)

Section SubFrames.
Import image frame.

Lemma SubFrame_spec f r :
  frame_ok f ->
  exists g, SubFrame f r = Ok g /\ frame_ok g /\
    (forall m, allocated m (Data f) -> allocated m (Data g)) /\
    (Empty (Intersect r (Bounds f)) = false ->
     Bounds g = Intersect r (Bounds f)) /\
    forall x y, In (Pt x y) (Bounds g) = true ->
      In (Pt x y) (Bounds f) = true /\ addr g x y = addr f x y.
Proof.
  intros Hok. unfold SubFrame.
  destruct (Empty (Intersect r (Bounds f))) eqn:HE.
  - exists zeroFrame. split; [reflexivity|]. split.
    { split; cbn; [rewrite max_int_val; lia | discriminate]. }
    split. { intros m _. unfold allocated. cbn. lia. }
    split; [discriminate|].
    intros x y H. apply In_spec in H. cbn in H. lia.
  - set (r' := Intersect r (Bounds f)) in *.
    assert (Hsub : forall x y, In (Pt x y) r' = true ->
                               In (Pt x y) (Bounds f) = true).
    { intros x y H. unfold r' in H. rewrite In_Intersect in H.
      by apply andb_true_iff in H as [_ H]. }
    pose proof (proj1 (Empty_false r') HE) as [Hx Hy].
    assert (H0 : In (Pt (X (Min r')) (Y (Min r'))) r' = true).
    { apply In_spec. cbn [X Y]. lia. }
    assert (H1 : In (Pt (X (Max r') - 1) (Y (Max r') - 1)) r' = true).
    { apply In_spec. cbn [X Y]. lia. }
    pose proof (Hsub _ _ H0) as H0f. pose proof (Hsub _ _ H1) as H1f.
    destruct (CellOffset_exact f _ _ Hok H0f) as [E Hr].
    pose proof (frame_ok_geom f _ _ Hok H0f) as G0.
    pose proof (frame_ok_geom f _ _ Hok H1f) as G1.
    cbv zeta in G0, G1.
    unfold slice_from.
    replace (0 <=? CellOffset f (X (Min r')) (Y (Min r'))) with true by lia.
    replace (CellOffset f (X (Min r')) (Y (Min r')) <=? len (Data f))
      with true by lia.
    cbn [andb mbind Result_bind].
    eexists. split; [reflexivity|]. rewrite E.
    set (s := Stride f) in *. set (bx := X (Min (Bounds f))) in *.
    set (by_ := Y (Min (Bounds f))) in *.
    split.
    { split; cbn [Data Bounds Stride len].
      - lia.
      - intros _. unfold width, height. nia. }
    split.
    { intros m Hal. unfold allocated in *. cbn [Data ptr len]. lia. }
    split; [reflexivity|].
    intros x y HIn. cbn [Bounds] in HIn. split; [by apply Hsub|].
    pose proof (frame_ok_geom f _ _ Hok (Hsub _ _ HIn)) as G.
    cbv zeta in G. fold s bx by_ in G.
    apply In_spec in HIn. cbn [X Y] in HIn.
    unfold addr. cbn [Data Bounds Stride ptr]. fold s bx by_.
    assert (0 <= (y - Y (Min r')) * s) by nia.
    rewrite <- Nat.add_assoc. f_equal.
    rewrite <- Z2Nat.inj_add by lia. f_equal. ring.
Qed.

Lemma SubFrame_wf m f r g : wf m f -> SubFrame f r = Ok g -> wf m g.
Proof.
  intros [Hok Hal] Hg.
  destruct (SubFrame_spec f r Hok) as (g' & Hg' & Hok' & Hal' & _).
  rewrite Hg in Hg'. injection Hg' as <-. split; auto.
Qed.

(** C4: a parent frame and a sub-frame cut from it with a non-empty
    intersection share storage: at every coordinate of the sub-frame, a cell
    written through the sub-frame is read through the parent, and a cell
    written through the parent is read through the sub-frame. *)
Theorem SubFrame_aliasing m f r :
  wf m f -> Empty (Intersect r (Bounds f)) = false ->
  exists g, SubFrame f r = Ok g /\ Bounds g = Intersect r (Bounds f) /\
    forall x y c, In (Pt x y) (Bounds g) = true ->
      (exists m', Set_ m g x y c = Ok m' /\ At m' f x y = Ok c) /\
      (exists m', Set_ m f x y c = Ok m' /\ At m' g x y = Ok c).
Proof.
  intros Hwf HE. destruct Hwf as [Hok Hal].
  destruct (SubFrame_spec f r Hok) as (g & Hg & Hokg & Halg & HB & Hshare).
  exists g. split; [exact Hg|]. split; [by apply HB|].
  intros x y c HIn. destruct (Hshare x y HIn) as [HInf Haddr].
  assert (Hwf : wf m f) by (by split).
  assert (Hwg : wf m g) by (split; auto).
  split.
  - exists (<[addr g x y := c]> m). split; [by apply Set_inside|].
    destruct (At_inside _ f x y (wf_insert m f (addr g x y) c Hwf) HInf)
      as (c' & Hc' & ->).
    rewrite Haddr, list_lookup_insert_eq in Hc' by (by eapply addr_lt).
    congruence.
  - exists (<[addr f x y := c]> m). split; [by apply Set_inside|].
    destruct (At_inside _ g x y (wf_insert m g (addr f x y) c Hwg) HIn)
      as (c' & Hc' & ->).
    rewrite <- Haddr, list_lookup_insert_eq in Hc' by (by eapply addr_lt).
    congruence.
Qed.

Lemma New_wf m r m' f : exact_area r -> New m r = Ok (m', f) -> wf m' f.
Proof.
  intros (HW & HH & HA). unfold New, make, Dx, Dy, Int.mul, Int.sub.
  fold (width r) (height r).
  rewrite (wrap_small (width r)), (wrap_small (height r)),
    (wrap_small (width r * height r)) by done.
  destruct (width r * height r <? 0) eqn:Hn;
    cbn [mbind Result_bind]; [discriminate|]. intros [= <- <-].
  unfold Int.in_range in HA. split.
  - split; cbn [Data Bounds Stride len]; [lia|].
    intros HE. apply Empty_false in HE. unfold width, height in *. nia.
  - unfold allocated. cbn [Data ptr len].
    rewrite length_app, length_replicate. lia.
Qed.

Lemma reachable_frame_ok f : reachable f -> frame_ok f.
Proof.
  induction 1 as [m r m' f Hr HN | f r g _ IH Hg].
  - by destruct (New_wf m r m' f Hr HN).
  - destruct (SubFrame_spec f r IH) as (g' & Hg' & Hok & _).
    rewrite Hg in Hg'. by injection Hg' as <-.
Qed.

(** C5, amended: for every frame obtained from a root made by [New] on a
    rectangle whose width, height and area are computed without overflow,
    through any chain of sub-frames, and for every coordinate inside its
    bounds, the storage index [(y - min.y) * stride + (x - min.x)] lies
    within the length of the frame's storage, so that neither [At] nor
    [Set] indexes out of range. *)
Theorem reachable_index_in_range f x y :
  reachable f -> In (Pt x y) (Bounds f) = true ->
  CellOffset f x y
    = (y - Y (Min (Bounds f))) * Stride f + (x - X (Min (Bounds f))) /\
  0 <= CellOffset f x y < len (Data f) /\
  forall m c, At m f x y <> Panic "index out of range" /\
              Set_ m f x y c <> Panic "index out of range".
Proof.
  intros Hr HIn. pose proof (reachable_frame_ok f Hr) as Hok.
  destruct (CellOffset_exact f x y Hok HIn) as [E Hrange].
  split; [exact E|]. split; [exact Hrange|].
  intros m c. unfold At, Set_, index, store. rewrite HIn. cbn [negb].
  replace (0 <=? CellOffset f x y) with true by lia.
  replace (CellOffset f x y <? len (Data f)) with true by lia.
  cbn [andb]. split.
  - destruct (m !! _); discriminate.
  - destruct (_ <? _)%nat; discriminate.
Qed.

End SubFrames.

(** ** Filling rectangles *)

Section Filling.
Import image frame.

(** A loop whose every iteration paints the cells selected by [hit] paints,
    in the end, the cells selected by some iteration. *)
Lemma foldM_paint {A} (f : Frame) (c : Cell)
    (body : A -> Mem -> Result Mem) (hit : A -> Z -> Z -> bool) :
  (forall a m, wf m f ->
     exists m', body a m = Ok m' /\ wf m' f /\ length m' = length m /\
       forall x y, At m' f x y = if hit a x y then Ok c else At m f x y) ->
  forall l m, wf m f ->
    exists m', foldM body l m = Ok m' /\ wf m' f /\ length m' = length m /\
      forall x y,
        At m' f x y = if existsb (fun a => hit a x y) l then Ok c
                      else At m f x y.
Proof.
  intros Hbody l. induction l as [|a l IH]; intros m Hwf.
  - exists m. cbn. done.
  - destruct (Hbody a m Hwf) as (m1 & E1 & Hwf1 & L1 & A1).
    destruct (IH m1 Hwf1) as (m' & E' & Hwf' & L' & A').
    exists m'. cbn [foldM]. rewrite E1. cbn [mbind Result_bind].
    split; [exact E'|]. split; [exact Hwf'|]. split; [lia|].
    intros x y. rewrite A', A1. cbn [existsb].
    destruct (hit a x y), (existsb _ l); reflexivity.
Qed.

Lemma existsb_range (P : Z -> bool) lo hi :
  existsb P (range lo hi) = true <-> exists z, lo <= z < hi /\ P z = true.
Proof.
  rewrite existsb_exists. split; intros (z & Hz & HP); exists z;
    (split; [|exact HP]).
  - by apply range_elem, list_elem_of_In.
  - by apply list_elem_of_In, range_elem.
Qed.

Lemma fill_hit (B r' : Rectangle) x y :
  (forall p, In p r' = true -> In p B = true) ->
  existsb (fun y0 =>
     existsb (fun x0 => In (Pt x0 y0) B && (x =? x0) && (y =? y0))
             (range (X (Min r')) (X (Max r'))))
    (range (Y (Min r')) (Y (Max r')))
  = In (Pt x y) r'.
Proof.
  intros Hsub. apply eq_true_iff_eq. rewrite existsb_range. split.
  - intros (y0 & Hy0 & H). apply existsb_range in H as (x0 & Hx0 & H).
    apply andb_true_iff in H as [H Ey]. apply andb_true_iff in H as [_ Ex].
    apply Z.eqb_eq in Ex, Ey. subst x0 y0. apply In_spec. cbn [X Y]. lia.
  - intros H. pose proof (Hsub _ H) as HB. apply In_spec in H. cbn [X Y] in H.
    exists y. split; [lia|]. apply existsb_range. exists x. split; [lia|].
    by rewrite HB, !Z.eqb_refl.
Qed.

(** C7: [FillRect] makes every point of the intersection of the rectangle
    with the bounds read back the fill cell, leaves what is read at every
    other point as it was, and does nothing at all when the intersection
    is empty. *)
Theorem FillRect_spec m f r c :
  wf m f ->
  exists m', FillRect m f r c = Ok m' /\
    (forall x y, In (Pt x y) (Intersect (Bounds f) r) = true ->
                 At m' f x y = Ok c) /\
    (forall x y, In (Pt x y) (Intersect (Bounds f) r) = false ->
                 At m' f x y = At m f x y) /\
    (Empty (Intersect (Bounds f) r) = true -> m' = m).
Proof.
  intros Hwf. unfold FillRect. set (r' := Intersect (Bounds f) r).
  destruct (Empty r') eqn:HE.
  - exists m. split; [reflexivity|]. split; [|done].
    intros x y H. apply In_nonempty in H. congruence.
  - assert (Hsub : forall p, In p r' = true -> In p (Bounds f) = true).
    { intros p H. unfold r' in H. rewrite In_Intersect in H.
      by apply andb_true_iff in H as [H _]. }
    assert (Hrow : forall y0 m0, wf m0 f ->
      exists m', foldM (fun x m => Set_ m f x y0 c)
                       (range (X (Min r')) (X (Max r'))) m0 = Ok m' /\
        wf m' f /\ length m' = length m0 /\
        forall x y, At m' f x y =
          if existsb (fun x0 => In (Pt x0 y0) (Bounds f) && (x =? x0) && (y =? y0))
                     (range (X (Min r')) (X (Max r')))
          then Ok c else At m0 f x y).
    { intros y0 m0 Hwf0.
      apply (foldM_paint f c (fun x m => Set_ m f x y0 c)
               (fun x0 x y => In (Pt x0 y0) (Bounds f) && (x =? x0) && (y =? y0)));
        [|exact Hwf0].
      intros x0 m1 Hwf1. apply Set_At, Hwf1. }
    destruct (foldM_paint f c _ _ Hrow (range (Y (Min r')) (Y (Max r'))) m Hwf)
      as (m' & E & _ & _ & HA).
    exists m'. split; [exact E|].
    split; [|split; [|discriminate]].
    + intros x y H. by rewrite HA, fill_hit, H.
    + intros x y H. by rewrite HA, fill_hit, H.
Qed.

End Filling.

(** ** Printing *)

Section Printing.
Import image console frame.

Lemma append_nil_r (s : string) : s +:+ "" = s.
Proof.
  induction s as [|a s IH]; [reflexivity|].
  change (String a s +:+ "") with (String a (s +:+ "")). by rewrite IH.
Qed.

Lemma append_assoc (s t u : string) : (s +:+ t) +:+ u = s +:+ t +:+ u.
Proof.
  induction s as [|a s IH]; [reflexivity|].
  change ((String a s +:+ t) +:+ u) with (String a ((s +:+ t) +:+ u)).
  by rewrite IH.
Qed.

Lemma trace_bytes_app evs evs' :
  trace_bytes (evs ++ evs') = trace_bytes evs +:+ trace_bytes evs'.
Proof.
  induction evs as [|e evs IH]; [reflexivity|].
  cbn [app trace_bytes]. by rewrite IH, append_assoc.
Qed.

Lemma trace_bytes_snoc evs e :
  trace_bytes (evs ++ [e]) = trace_bytes evs +:+ event_bytes e.
Proof. rewrite trace_bytes_app. cbn [trace_bytes]. by rewrite append_nil_r. Qed.

Lemma Color_eqb_eq c d : Color_eqb c d = true <-> c = d.
Proof.
  destruct c as [a f b], d as [a' f' b']. unfold Color_eqb. cbn [Attr Fore Back].
  rewrite !andb_true_iff, !Z.eqb_eq. split; [intros [[-> ->] ->]|intros [= -> -> ->]]; done.
Qed.

Lemma foldM_sim {A S T} (Rel : S -> T -> Prop)
    (b1 : A -> S -> Result S) (b2 : A -> T -> Result T) :
  (forall a s t, Rel s t -> Result_rel Rel (b1 a s) (b2 a t)) ->
  forall l s t, Rel s t -> Result_rel Rel (foldM b1 l s) (foldM b2 l t).
Proof.
  intros Hb l. induction l as [|a l IH]; intros s t HR; [exact HR|].
  cbn [foldM]. specialize (Hb a s t HR).
  destruct (b1 a s) as [s'|p], (b2 a t) as [t'|q]; cbn in Hb |- *;
    try contradiction; [by apply IH | exact Hb].
Qed.

Lemma print_cell_sim m f y x st st' :
  buf_of_events st st' ->
  Result_rel buf_of_events (print_cell m f y x st) (print_cell_events m f y x st').
Proof.
  destruct st as [col buf], st' as [col' evs]. intros [Hc Hb]. cbn in Hc, Hb.
  subst col' buf. unfold print_cell, print_cell_events.
  destruct (At m f x y) as [cell|p]; cbn [mbind Result_bind]; [|reflexivity].
  destruct (negb (Color_eqb col (C cell))).
  - destruct (String_ (C cell)) as [s|p]; cbn [mbind Result_bind]; [|reflexivity].
    split; cbn [fst snd]; [reflexivity|].
    by rewrite !trace_bytes_snoc.
  - cbn [mbind Result_bind]. split; cbn [fst snd]; [reflexivity|].
    by rewrite trace_bytes_snoc.
Qed.

Lemma print_row_sim m f r y st st' :
  buf_of_events st st' ->
  Result_rel buf_of_events (print_row m f r y st) (print_row_events m f r y st').
Proof.
  destruct st as [col buf], st' as [col' evs]. intros [Hc Hb]. cbn in Hc, Hb.
  subst col' buf. unfold print_row, print_row_events.
  apply foldM_sim; [intros; by apply print_cell_sim|].
  split; cbn [fst snd]; [reflexivity|]. by rewrite trace_bytes_snoc.
Qed.

(** [PrintRect] writes the bytes of the events of [PrintRect_events], and
    panics when it does. *)
Lemma PrintRect_bytes printBuf m f r :
  PrintRect printBuf m f r =
    (evs ← PrintRect_events m f r; Ok (trace_bytes evs, trace_bytes evs)).
Proof.
  unfold PrintRect, PrintRect_events.
  assert (substring 0 0 printBuf = "") as -> by (by destruct printBuf).
  pose proof (foldM_sim buf_of_events (print_row m f r) (print_row_events m f r)
                (fun a s t => print_row_sim m f r a s t)
                (range (Y (Min r)) (Y (Max r)))
                (Color_ 0 0 0, "") (Color_ 0 0 0, [])) as H.
  specialize (H (conj eq_refl eq_refl)).
  destruct (foldM (print_row m f r) _ _) as [[col buf]|p],
           (foldM (print_row_events m f r) _ _) as [[col' evs]|q];
    unfold Result_rel, buf_of_events in H; cbn in H |- *; try contradiction.
  - destruct H as [_ ->]. reflexivity.
  - by subst q.
Qed.

End Printing.

Section PrintingTrace.
Import image console frame.

Lemma foldM_prefix_inv {A S} (I : list A -> S -> Prop)
    (body : A -> S -> Result S) (l : list A) :
  (forall done a s s', a ∈ l -> I done s -> body a s = Ok s' ->
                       I (done ++ [a]) s') ->
  forall done s s', I done s -> foldM body l s = Ok s' -> I (done ++ l) s'.
Proof.
  induction l as [|a l IH]; intros Hstep done s s' HI HF.
  - cbn in HF. injection HF as <-. by rewrite app_nil_r.
  - cbn [foldM] in HF. destruct (body a s) as [s1|p] eqn:E;
      cbn [mbind Result_bind] in HF; [|discriminate].
    replace (done ++ a :: l) with ((done ++ [a]) ++ l)
      by (by rewrite <- app_assoc).
    apply (IH (fun d b t t' Hb => Hstep d b t t' (list_elem_of_further _ _ _ Hb))
              (done ++ [a]) s1 s'); [|exact HF].
    apply (Hstep done a s s1); [apply list_elem_of_here | exact HI | exact E].
Qed.

Lemma last_color_from_app col evs evs' :
  last_color_from col (evs ++ evs') = last_color_from (last_color_from col evs) evs'.
Proof.
  revert col. induction evs as [|e evs IH]; intros col; [reflexivity|].
  destruct e; cbn [app last_color_from]; apply IH.
Qed.

Lemma last_color_snoc_cell evs x y cell :
  last_color (evs ++ [EvCell x y cell]) = last_color evs.
Proof. unfold last_color. by rewrite last_color_from_app. Qed.

Lemma last_color_snoc_move evs line column :
  last_color (evs ++ [EvMoveTo line column]) = last_color evs.
Proof. unfold last_color. by rewrite last_color_from_app. Qed.

Lemma last_color_snoc_color evs c code :
  last_color (evs ++ [EvColor c code]) = c.
Proof. unfold last_color. by rewrite last_color_from_app. Qed.

Lemma cell_coords_app evs evs' :
  cell_coords (evs ++ evs') = cell_coords evs ++ cell_coords evs'.
Proof.
  induction evs as [|e evs IH]; [reflexivity|].
  destruct e; cbn [app cell_coords]; by rewrite IH.
Qed.

Lemma moves_of_app evs evs' :
  moves_of (evs ++ evs') = moves_of evs ++ moves_of evs'.
Proof.
  induction evs as [|e evs IH]; [reflexivity|].
  destruct e; cbn [app moves_of]; by rewrite IH.
Qed.

(** One iteration of the inner loop appends a cell, after a colour change
    when the colour of the cell is not the running colour. *)
Lemma print_cell_events_step m f y x col evs col' evs' :
  print_cell_events m f y x (col, evs) = Ok (col', evs') ->
  exists cell, At m f x y = Ok cell /\ col' = C cell /\
    ((col = C cell /\ evs' = evs ++ [EvCell x y cell]) \/
     (col <> C cell /\ exists code, String_ (C cell) = Ok code /\
        evs' = evs ++ [EvColor (C cell) code; EvCell x y cell])).
Proof.
  unfold print_cell_events.
  destruct (At m f x y) as [cell|p]; cbn [mbind Result_bind]; [|discriminate].
  destruct (Color_eqb col (C cell)) eqn:E; cbn [negb].
  - apply Color_eqb_eq in E. cbn [mbind Result_bind]. intros [= <- <-].
    exists cell. split; [reflexivity|]. split; [exact E|]. left. done.
  - destruct (String_ (C cell)) as [code|p] eqn:Hs; cbn [mbind Result_bind];
      [|discriminate].
    intros [= <- <-]. exists cell. split; [reflexivity|]. split; [reflexivity|].
    right. split.
    + intros ->. rewrite (proj2 (Color_eqb_eq _ _) eq_refl) in E. discriminate.
    + exists code. split; [exact Hs|]. by rewrite <- app_assoc.
Qed.

Lemma print_row_events_inv m f r y col evs col' evs' :
  run_length m f evs -> col = last_color evs ->
  print_row_events m f r y (col, evs) = Ok (col', evs') ->
  row_inv m f evs y (Int.add y 1) (X (Min r))
          (range (X (Min r)) (X (Max r))) (col', evs').
Proof.
  intros Hrun Hcol. unfold print_row_events. intros HF.
  apply (foldM_prefix_inv
           (row_inv m f evs y (Int.add y 1) (X (Min r)))
           (print_cell_events m f y) _) with (done := []) in HF;
    [exact HF| |].
  - intros xs x [c es] [c' es'] _ (cells & E & Hco & Hmv & Hr & Hc) Hstep.
    cbn [fst snd] in *.
    apply print_cell_events_step in Hstep
      as (cell & HAt & -> & [[Hsame ->] | [Hne (code & Hcode & ->)]]).
    + exists (cells ++ [EvCell x y cell]). cbn [fst snd].
      split; [by rewrite E, <- app_assoc|].
      split; [by rewrite cell_coords_app, Hco, map_app|].
      split; [by rewrite moves_of_app, Hmv|].
      split; [apply run_same; [done|done|congruence]|].
      rewrite last_color_snoc_cell. congruence.
    + exists (cells ++ [EvColor (C cell) code; EvCell x y cell]). cbn [fst snd].
      split; [by rewrite E, <- app_assoc|].
      split; [by rewrite cell_coords_app, Hco, map_app|].
      split; [by rewrite moves_of_app, Hmv|].
      split; [apply run_change; [done|done|congruence|done]|].
      change [EvColor (C cell) code; EvCell x y cell]
        with ([EvColor (C cell) code] ++ [EvCell x y cell]).
      by rewrite app_assoc, last_color_snoc_cell, last_color_snoc_color.
  - exists []. cbn [fst snd]. split; [reflexivity|]. split; [reflexivity|].
    split; [reflexivity|]. split; [by apply run_move|].
    by rewrite last_color_snoc_move.
Qed.

Lemma PrintRect_events_inv m f r evs :
  Int.in_range (Y (Min r)) -> Int.in_range (Y (Max r)) ->
  PrintRect_events m f r = Ok evs ->
  exists rows, evs = concat rows /\
    Forall2 (row_shape r) (range (Y (Min r)) (Y (Max r))) rows.
Proof.
  intros Hlo Hhi. unfold PrintRect_events.
  destruct (foldM _ _ _) as [[col evs']|p] eqn:HF;
    cbn [mbind Result_bind]; [|discriminate].
  intros [= <-].
  apply (foldM_prefix_inv (rect_inv m f r) (print_row_events m f r) _)
    with (done := []) in HF.
  - destruct HF as (rows & E & HF2 & _). cbn [snd app] in *. eauto.
  - intros ys y [c es] [c' es'] Hy (rows & E & HF2 & Hr & Hc) Hstep.
    cbn [fst snd] in *.
    apply print_row_events_inv in Hstep; [|done..].
    destruct Hstep as (cells & E' & Hco & Hmv & Hr' & Hc'). cbn [fst snd] in *.
    exists (rows ++ [EvMoveTo (Int.add y 1) (X (Min r)) :: cells]).
    cbn [fst snd]. split.
    { rewrite concat_app. cbn [concat]. by rewrite app_nil_r, E', E. }
    split; [|done].
    apply Forall2_app; [done|]. constructor; [|constructor].
    exists (X (Min r)), cells. split; [|done].
    apply range_elem in Hy. unfold Int.add. rewrite wrap_small; [done|].
    unfold Int.in_range in *. lia.
  - exists []. cbn. split; [done|]. split; [constructor|].
    split; [constructor|done].
Qed.

Lemma PrintRect_events_run_length m f r evs :
  PrintRect_events m f r = Ok evs -> run_length m f evs.
Proof.
  unfold PrintRect_events.
  destruct (foldM _ _ _) as [[col evs']|p] eqn:HF;
    cbn [mbind Result_bind]; [|discriminate].
  intros [= <-].
  apply (foldM_prefix_inv
           (fun _ st => run_length m f st.2 /\ st.1 = last_color st.2)
           (print_row_events m f r) _) with (done := []) in HF.
  - by destruct HF.
  - intros ys y [c es] [c' es'] _ [Hr Hc] Hstep. cbn [fst snd] in *.
    apply print_row_events_inv in Hstep; [|done..].
    by destruct Hstep as (cells & _ & _ & _ & Hr' & Hc').
  - cbn. split; [constructor|done].
Qed.

End PrintingTrace.

(** ** Colour changes in a trace *)

Section ColourRuns.
Import image console frame.

(** Where an element of [l ++ t] lies: in [l], or in [t]. *)
Lemma app_eq_mid {A} (l t pre post : list A) (e : A) :
  l ++ t = pre ++ e :: post ->
  (exists post', l = pre ++ e :: post' /\ post = post' ++ t) \/
  (exists k, pre = l ++ k /\ t = k ++ e :: post).
Proof.
  revert pre. induction l as [|a l IH]; intros pre H.
  - right. exists pre. done.
  - destruct pre as [|b pre]; cbn [app] in H.
    + injection H as -> <-. left. by exists l.
    + injection H as -> H. destruct (IH pre H) as [(post' & -> & ->) | (k & -> & ->)].
      * left. by exists post'.
      * right. by exists k.
Qed.

Lemma run_length_not_dangling m f evs pre c code :
  run_length m f evs -> evs <> pre ++ [EvColor c code].
Proof.
  intros Hr E. destruct Hr as [|evs l k _|evs x y cell _ _ _|evs x y cell cd _ _ _ _].
  - by destruct pre.
  - by apply app_inj_tail in E as [_ ?].
  - by apply app_inj_tail in E as [_ ?].
  - change [EvColor (C cell) cd; EvCell x y cell]
      with ([EvColor (C cell) cd] ++ [EvCell x y cell]) in E.
    rewrite app_assoc in E. by apply app_inj_tail in E as [_ ?].
Qed.

(** Every cell of a trace is printed in its own colour: either a change to
    that colour, which differs from the colour emitted before, comes just
    before it, or no change does and its colour is the last one emitted. *)
Lemma run_length_cell m f evs pre x y cell post :
  run_length m f evs -> evs = pre ++ EvCell x y cell :: post ->
  At m f x y = Ok cell /\
  ((exists pre' code, pre = pre' ++ [EvColor (C cell) code] /\
                      C cell <> last_color pre') \/
   (C cell = last_color pre /\
    forall pre' c code, pre <> pre' ++ [EvColor c code])).
Proof.
  intros Hr. revert pre post.
  induction Hr as [|evs l k Hr IH|evs x0 y0 cell0 Hr IH HAt Hc
                   |evs x0 y0 cell0 cd Hr IH HAt Hc Hs]; intros pre post E.
  - by destruct pre.
  - apply app_eq_mid in E as [(post' & -> & ->) | (k' & -> & E)].
    + by eapply IH.
    + destruct k' as [|? [|]]; discriminate.
  - apply app_eq_mid in E as [(post' & -> & ->) | (k' & -> & E)].
    + by eapply IH.
    + destruct k' as [|? [|]]; try discriminate. cbn [app] in E. simplify_eq.
      rewrite app_nil_r. split; [done|]. right. split; [done|].
      intros pre' c code. by apply (run_length_not_dangling m f).
  - apply app_eq_mid in E as [(post' & -> & ->) | (k' & -> & E)].
    + by eapply IH.
    + destruct k' as [|? [|? [|]]]; try discriminate.
      cbn [app] in E. simplify_eq. split; [done|]. left. by exists evs, cd.
Qed.

(** A colour change is never for the colour already in force, carries the
    escape string of its colour, and is followed by a cell of that colour. *)
Lemma run_length_color m f evs pre c code post :
  run_length m f evs -> evs = pre ++ EvColor c code :: post ->
  c <> last_color pre /\ String_ c = Ok code /\
  exists x y cell post', post = EvCell x y cell :: post' /\ C cell = c.
Proof.
  intros Hr. revert pre post.
  induction Hr as [|evs l k Hr IH|evs x0 y0 cell0 Hr IH HAt Hc
                   |evs x0 y0 cell0 cd Hr IH HAt Hc Hs]; intros pre post E.
  - by destruct pre.
  - apply app_eq_mid in E as [(post' & -> & ->) | (k' & -> & E)].
    + destruct (IH _ _ eq_refl) as (? & ? & x & y & cell & p & -> & ?).
      split; [done|]. split; [done|]. by exists x, y, cell, (p ++ [EvMoveTo l k]).
    + destruct k' as [|? [|]]; discriminate.
  - apply app_eq_mid in E as [(post' & -> & ->) | (k' & -> & E)].
    + destruct (IH _ _ eq_refl) as (? & ? & x & y & cell & p & -> & ?).
      split; [done|]. split; [done|].
      by exists x, y, cell, (p ++ [EvCell x0 y0 cell0]).
    + destruct k' as [|? [|]]; discriminate.
  - apply app_eq_mid in E as [(post' & -> & ->) | (k' & -> & E)].
    + destruct (IH _ _ eq_refl) as (? & ? & x & y & cell & p & -> & ?).
      split; [done|]. split; [done|].
      by exists x, y, cell, (p ++ [EvColor (C cell0) cd; EvCell x0 y0 cell0]).
    + destruct k' as [|? [|? [|]]]; try discriminate.
      cbn [app] in E. simplify_eq. rewrite app_nil_r.
      split; [done|]. split; [done|]. by exists x0, y0, cell0, [].
Qed.

Lemma run_length_cells_read m f evs x y cell :
  run_length m f evs -> EvCell x y cell ∈ evs -> At m f x y = Ok cell.
Proof.
  intros Hr Hin. apply list_elem_of_split in Hin as (pre & post & ->).
  by destruct (run_length_cell m f _ pre x y cell post Hr eq_refl).
Qed.

(** C8: in one render a colour-change escape sequence is emitted before a
    cell exactly when the colour of the cell differs from the colour last
    emitted in that render, the zero colour standing for it before any was
    emitted; a colour code is never emitted for the colour already in
    force; and what is written does not depend on what earlier calls left
    in [printBuf]. *)
Theorem PrintRect_color_runs printBuf m f r printBuf' out :
  PrintRect printBuf m f r = Ok (printBuf', out) ->
  exists evs,
    PrintRect_events m f r = Ok evs /\ out = trace_bytes evs /\
    (forall pre x y cell post, evs = pre ++ EvCell x y cell :: post ->
       At m f x y = Ok cell /\
       ((exists pre' code, pre = pre' ++ [EvColor (C cell) code] /\
                           C cell <> last_color pre') \/
        (C cell = last_color pre /\
         forall pre' c code, pre <> pre' ++ [EvColor c code]))) /\
    (forall pre c code post, evs = pre ++ EvColor c code :: post ->
       c <> last_color pre /\ String_ c = Ok code /\
       exists x y cell post', post = EvCell x y cell :: post' /\ C cell = c) /\
    (forall printBuf2, PrintRect printBuf2 m f r = Ok (out, out)).
Proof.
  rewrite PrintRect_bytes.
  destruct (PrintRect_events m f r) as [evs|p] eqn:HE;
    cbn [mbind Result_bind]; [|discriminate].
  intros [= <- <-]. exists evs.
  pose proof (PrintRect_events_run_length m f r evs HE) as Hr.
  split; [reflexivity|]. split; [reflexivity|].
  split; [intros; by eapply run_length_cell|].
  split; [intros; by eapply run_length_color|].
  intros pb2. rewrite PrintRect_bytes, HE. reflexivity.
Qed.

(** C2, amended: [PrintRect] emits one row for every row of the rectangle
    it is given, whether or not the row meets the bounds of the frame, from
    top to bottom; each row begins with a cursor-position escape sequence
    whose line is the row plus one, followed by the cells of the row from
    its first to its last column, each as [At] reads it. *)
Theorem PrintRect_rows printBuf m f r printBuf' out :
  Int.in_range (Y (Min r)) -> Int.in_range (Y (Max r)) ->
  PrintRect printBuf m f r = Ok (printBuf', out) ->
  exists rows,
    PrintRect_events m f r = Ok (concat rows) /\
    out = trace_bytes (concat rows) /\
    Forall2 (row_shape r) (range (Y (Min r)) (Y (Max r))) rows /\
    forall x y cell, EvCell x y cell ∈ concat rows -> At m f x y = Ok cell.
Proof.
  intros Hlo Hhi. rewrite PrintRect_bytes.
  destruct (PrintRect_events m f r) as [evs|p] eqn:HE;
    cbn [mbind Result_bind]; [|discriminate].
  intros [= <- <-].
  destruct (PrintRect_events_inv m f r evs Hlo Hhi HE) as (rows & -> & HF).
  exists rows. split; [reflexivity|]. split; [reflexivity|]. split; [exact HF|].
  intros x y cell. apply run_length_cells_read.
  by apply (PrintRect_events_run_length m f r).
Qed.

End ColourRuns.

(** ** Writing text *)

Section Text.
Import image console frame.

Lemma put_runes_ok m f y col o x :
  allocated m (Data f) -> storage_invariant f ->
  exists m', foldM (put_rune f y col) o (m, x) = Ok (m', advance x o) /\
             allocated m' (Data f).
Proof.
  intros Hal Hinv. revert m x Hal. induction o as [|r o IH]; intros m x Hal.
  - exists m. done.
  - destruct (Set_in_range m f x y (Cell_ r col) Hal Hinv) as (m1 & E1 & L1 & _).
    assert (Hal1 : allocated m1 (Data f)) by (unfold allocated in *; lia).
    destruct (IH m1 (Int.add x 1) Hal1) as (m' & E' & Hal').
    exists m'. split; [|exact Hal'].
    cbn [foldM put_rune]. rewrite E1. cbn [mbind Result_bind]. exact E'.
Qed.

Lemma other_met_nil bound x : ~ other_met bound x [].
Proof. intros (i & H & _). by rewrite lookup_nil in H. Qed.

Lemma other_met_past bound x vals : bound <= x -> ~ other_met bound x vals.
Proof.
  intros Hx (i & _ & H). specialize (H 0%nat (Nat.le_0_l _)).
  rewrite take_0 in H. cbn in H. lia.
Qed.

Lemma other_met_here bound x vals : x < bound -> other_met bound x (IOther :: vals).
Proof.
  intros Hx. exists 0%nat. split; [reflexivity|].
  intros j Hj. assert (j = 0%nat) as -> by lia. exact Hx.
Qed.

Lemma other_met_step bound x v vals :
  x < bound -> v <> IOther ->
  other_met bound x (v :: vals) <-> other_met bound (advance_item x v) vals.
Proof.
  intros Hx Hv. split.
  - intros (i & Hi & H). destruct i as [|i]; [cbn in Hi; congruence|].
    exists i. split; [exact Hi|]. intros j Hj.
    apply (H (S j)). lia.
  - intros (i & Hi & H). exists (S i). split; [exact Hi|].
    intros [|j] Hj; [exact Hx|]. apply (H j). lia.
Qed.

Lemma PutText_loop_spec f y vals m x col :
  allocated m (Data f) -> storage_invariant f ->
  (other_met (X (Max (Bounds f))) x vals ->
   PutText_loop f y vals m x col = Panic PutText_msg) /\
  (~ other_met (X (Max (Bounds f))) x vals ->
   exists m', PutText_loop f y vals m x col = Ok m').
Proof.
  intros Hal Hinv. revert m x col Hal.
  induction vals as [|v vals IH]; intros m x col Hal.
  - split; [intros H; by apply other_met_nil in H|]. intros _. by exists m.
  - cbn [PutText_loop]. destruct (X (Max (Bounds f)) <=? x) eqn:Hx.
    + split; [|intros _; by exists m].
      intros H. apply other_met_past in H; [done|lia].
    + assert (x < X (Max (Bounds f))) as Hlt by lia.
      destruct v as [o|o|].
      * destruct (put_runes_ok m f y col o x Hal Hinv) as (m1 & E1 & Hal1).
        rewrite E1. cbn [mbind Result_bind].
        rewrite (other_met_step _ x (IString o) vals Hlt) by discriminate.
        apply IH, Hal1.
      * rewrite (other_met_step _ x (IColor o) vals Hlt) by discriminate.
        apply IH, Hal.
      * split; [reflexivity|]. intros H. exfalso. apply H.
        by apply other_met_here.
Qed.

(** C10: on a frame whose storage indices are in range, [PutText] panics
    exactly when an item that is neither a string nor a colour is reached,
    that is, when the row [y] lies within the vertical bounds of the frame
    and the running cursor column is left of the right bound at that item
    and at every item before it; in every other case the item is not
    examined and the call returns. *)
Theorem PutText_panics m f x y vals :
  allocated m (Data f) -> storage_invariant f ->
  (reaches_other f x y vals -> PutText m f x y vals = Panic PutText_msg) /\
  (~ reaches_other f x y vals -> exists m', PutText m f x y vals = Ok m').
Proof.
  intros Hal Hinv. unfold PutText, reaches_other.
  destruct (PutText_loop_spec f y vals m x (Color_ 0 0 0) Hal Hinv) as [HP HO].
  destruct ((y <? Y (Min (Bounds f))) || (Y (Max (Bounds f)) <=? y)) eqn:Hy.
  - apply orb_true_iff in Hy. split; [intros [? _]; lia|].
    intros _. by exists m.
  - apply orb_false_iff in Hy. split.
    + intros [_ H]. by apply HP.
    + intros H. apply HO. intros H'. apply H. split; [lia|exact H'].
Qed.

End Text.

(** ** [PrintRect] returns *)

Section PrintingReturns.
Import image console frame.

Lemma foldM_total {A S} (I : S -> Prop) (body : A -> S -> Result S) :
  (forall a s, I s -> exists s', body a s = Ok s' /\ I s') ->
  forall l s, I s -> exists s', foldM body l s = Ok s' /\ I s'.
Proof.
  intros Hb l. induction l as [|a l IH]; intros s Hs; [by exists s|].
  destruct (Hb a s Hs) as (s1 & E & H1). destruct (IH s1 H1) as (s' & E' & H').
  exists s'. cbn [foldM]. rewrite E. done.
Qed.

Lemma At_valid_color m f x y :
  wf m f -> (forall c, c ∈ m -> valid_color (C c)) ->
  exists cell, At m f x y = Ok cell /\ valid_color (C cell).
Proof.
  intros Hwf Hm. destruct (In (Pt x y) (Bounds f)) eqn:HIn.
  - destruct (At_inside m f x y Hwf HIn) as (c & Hc & E).
    exists c. split; [exact E|]. eapply Hm, list_elem_of_lookup_2, Hc.
  - exists zeroCell. split; [by apply At_outside|].
    unfold valid_color. cbn. lia.
Qed.

(** X13: on a well-formed frame in a memory whose cells all have colours in
    range, [PrintRect] returns, for every rectangle, whether it lies inside
    the bounds or not. *)
Lemma PrintRect_returns printBuf m f r :
  wf m f -> (forall c, c ∈ m -> valid_color (C c)) ->
  exists out, PrintRect printBuf m f r = Ok (out, out).
Proof.
  intros Hwf Hm. rewrite PrintRect_bytes. unfold PrintRect_events.
  destruct (foldM_total (fun _ => True) (print_row_events m f r)) with
    (l := range (Y (Min r)) (Y (Max r))) (s := (Color_ 0 0 0, @nil Event))
    as ([col evs] & E & _); [|done|].
  - intros y [col evs] _. unfold print_row_events.
    apply (foldM_total (fun _ => True)); [|done].
    intros x [c es] _. unfold print_cell_events.
    destruct (At_valid_color m f x y Hwf Hm) as (cell & -> & (Ha & Hf & Hb)).
    cbn [mbind Result_bind]. destruct (negb _); [|eauto].
    unfold String_. rewrite FormatColor_in_range by done.
    cbn [mbind Result_bind]. eauto.
  - rewrite E. cbn [mbind Result_bind]. eauto.
Qed.

End PrintingReturns.

(** ** The scenario, and inputs on which the specification fails *)

Section Examples.
Import image console frame.

(** C1: in the scenario (bounds (0,0)-(3,2), cleared, a red 'X' at (1,1),
    full bounds printed) the output has exactly one colour sequence for
    red on black, just before the 'X', and a space for every other cell;
    but it begins with the cursor sequence for line 1, column 0, and not
    with the one for line 1, column 1. *)
Theorem scenario_output_bytes :
  scenario_output =
    Ok (FormatMoveTo 1 0 +:+ "   " +:+
        FormatMoveTo 2 0 +:+ " " +:+ (_CSI +:+ "0;31;40m") +:+ "X" +:+
        (_CSI +:+ "0;30;40m") +:+ " ") /\
  String_ (C red_X) = Ok (_CSI +:+ "0;31;40m") /\
  (forall out, scenario_output = Ok out ->
     String.prefix (FormatMoveTo 1 0) out = true /\
     String.prefix (FormatMoveTo 1 1) out = false).
Proof.
  split; [reflexivity|]. split; [reflexivity|].
  intros out H. vm_compute in H. injection H as <-. split; reflexivity.
Qed.

(** C2 as stated fails: on a frame of bounds (0,0)-(1,1), printing the
    rectangle (0,0)-(1,2) emits two rows, for lines 1 and 2, although the
    intersection of the rectangle with the bounds has the single row 0. *)
Lemma PrintRect_rows_not_clipped :
  let r := Rectangle_ (Pt 0 0) (Pt 1 2) in
  exists m f evs,
    New [] (Rectangle_ (Pt 0 0) (Pt 1 1)) = Ok (m, f) /\
    PrintRect_events m f r = Ok evs /\
    PrintRect "" m f r = Ok (trace_bytes evs, trace_bytes evs) /\
    evs = [EvMoveTo 1 0; EvCell 0 0 zeroCell; EvMoveTo 2 0; EvCell 0 1 zeroCell] /\
    range (Y (Min (Intersect r (Bounds f)))) (Y (Max (Intersect r (Bounds f)))) = [0] /\
    ~ rows_as_stated f r evs.
Proof.
  intros r. eexists _, _, _. split; [reflexivity|]. split; [reflexivity|].
  split; [reflexivity|]. split; [reflexivity|]. split; [reflexivity|].
  unfold rows_as_stated. vm_compute. discriminate.
Qed.

(** C5 as stated fails: for the rectangle (0,0)-(2^32,2^32) the area
    computed by [New] wraps around to 0, the root frame has no storage, and
    the in-bounds point (0,0) has an index outside of it. *)
Lemma New_area_overflow :
  exists m f,
    New [] (Rectangle_ (Pt 0 0) (Pt 4294967296 4294967296)) = Ok (m, f) /\
    In (Pt 0 0) (Bounds f) = true /\
    len (Data f) = 0 /\
    ~ (0 <= CellOffset f 0 0 < len (Data f)) /\
    At m f 0 0 = Panic "index out of range".
Proof.
  eexists _, _. split; [reflexivity|]. split; [reflexivity|].
  split; [reflexivity|]. split; [|reflexivity].
  vm_compute. intros [_ H]. discriminate H.
Qed.

End Examples.

(** ** The theorems at concrete inputs *)

Section Witnesses.
Import image console frame.

Ltac demo_wf :=
  split;
  [ split;
    [ rewrite max_int_val; cbn; lia
    | intros _; unfold width, height; cbn; lia ]
  | unfold allocated; cbn; lia ].

Lemma At_Set_roundtrip_witness :
  allocated demo_mem (Data demo_frame) /\ storage_invariant demo_frame /\
  In (Pt 1 1) (Bounds demo_frame) = true /\
  exists m', Set_ demo_mem demo_frame 1 1 red_X = Ok m' /\
             At m' demo_frame 1 1 = Ok red_X.
Proof.
  assert (Hwf : wf demo_mem demo_frame) by demo_wf.
  destruct Hwf as [Hok Hal].
  pose proof (frame_ok_storage_invariant demo_frame Hok) as Hinv.
  split; [exact Hal|]. split; [exact Hinv|]. split; [reflexivity|].
  destruct (At_Set_roundtrip demo_mem demo_frame 1 1 red_X Hal Hinv) as [H _].
  apply H. reflexivity.
Defined.

Lemma SubFrame_aliasing_witness :
  let r := Rectangle_ (Pt 1 1) (Pt 5 5) in
  wf demo_mem demo_frame /\
  Empty (Intersect r (Bounds demo_frame)) = false /\
  exists g, SubFrame demo_frame r = Ok g /\
    Bounds g = Intersect r (Bounds demo_frame) /\
    forall x y c, In (Pt x y) (Bounds g) = true ->
      (exists m', Set_ demo_mem g x y c = Ok m' /\ At m' demo_frame x y = Ok c) /\
      (exists m', Set_ demo_mem demo_frame x y c = Ok m' /\ At m' g x y = Ok c).
Proof.
  intros r. assert (Hwf : wf demo_mem demo_frame) by demo_wf.
  split; [exact Hwf|]. split; [reflexivity|].
  apply (SubFrame_aliasing demo_mem demo_frame r Hwf). reflexivity.
Defined.

Lemma reachable_index_in_range_witness :
  let g := Frame_ (Slice_ 4 2) (Rectangle_ (Pt 1 1) (Pt 3 2)) 3 in
  reachable g /\ In (Pt 2 1) (Bounds g) = true /\
  CellOffset g 2 1 = 1 /\ 0 <= CellOffset g 2 1 < len (Data g).
Proof.
  intros g.
  assert (Hr : reachable g).
  { apply (reachable_SubFrame demo_frame (Rectangle_ (Pt 1 1) (Pt 5 5)));
      [|reflexivity].
    apply (reachable_New [] demo_rect demo_mem); [|reflexivity].
    unfold exact_area, Int.in_range. rewrite max_int_val, min_int_val.
    unfold width, height. cbn. lia. }
  split; [exact Hr|]. split; [reflexivity|].
  destruct (reachable_index_in_range g 2 1 Hr eq_refl) as (E & H & _).
  split; [|exact H]. reflexivity.
Defined.

Lemma FillRect_spec_witness :
  let r := Rectangle_ (Pt 1 0) (Pt 9 1) in
  wf demo_mem demo_frame /\
  exists m', FillRect demo_mem demo_frame r red_X = Ok m' /\
    (forall x y, In (Pt x y) (Intersect (Bounds demo_frame) r) = true ->
                 At m' demo_frame x y = Ok red_X) /\
    (forall x y, In (Pt x y) (Intersect (Bounds demo_frame) r) = false ->
                 At m' demo_frame x y = At demo_mem demo_frame x y) /\
    (Empty (Intersect (Bounds demo_frame) r) = true -> m' = demo_mem).
Proof.
  intros r. assert (Hwf : wf demo_mem demo_frame) by demo_wf.
  split; [exact Hwf|]. apply (FillRect_spec demo_mem demo_frame r red_X Hwf).
Defined.

Lemma PrintRect_color_runs_witness :
  let m := <[4%nat := red_X]> demo_mem in
  let out := FormatMoveTo 1 0 +:+ "   " +:+
             FormatMoveTo 2 0 +:+ " " +:+ (_CSI +:+ "0;31;40m") +:+ "X" +:+
             (_CSI +:+ "0;30;40m") +:+ " " in
  PrintRect "stale" m demo_frame demo_rect = Ok (out, out) /\
  exists evs, PrintRect_events m demo_frame demo_rect = Ok evs /\
              out = trace_bytes evs /\
              forall printBuf2, PrintRect printBuf2 m demo_frame demo_rect = Ok (out, out).
Proof.
  intros m out.
  assert (H : PrintRect "stale" m demo_frame demo_rect = Ok (out, out))
    by reflexivity.
  split; [exact H|].
  destruct (PrintRect_color_runs "stale" m demo_frame demo_rect out out H)
    as (evs & HE & Hout & _ & _ & Hind).
  exists evs. split; [exact HE|]. split; [exact Hout|exact Hind].
Defined.

Lemma PrintRect_rows_witness :
  let r := Rectangle_ (Pt 2 1) (Pt 4 3) in
  let out := FormatMoveTo 2 2 +:+ "  " +:+ FormatMoveTo 3 2 +:+ "  " in
  Int.in_range (Y (Min r)) /\ Int.in_range (Y (Max r)) /\
  PrintRect "" demo_mem demo_frame r = Ok (out, out) /\
  exists rows,
    PrintRect_events demo_mem demo_frame r = Ok (concat rows) /\
    out = trace_bytes (concat rows) /\
    Forall2 (row_shape r) (range (Y (Min r)) (Y (Max r))) rows.
Proof.
  intros r out.
  assert (Hlo : Int.in_range (Y (Min r))).
  { unfold Int.in_range. rewrite max_int_val, min_int_val. cbn. lia. }
  assert (Hhi : Int.in_range (Y (Max r))).
  { unfold Int.in_range. rewrite max_int_val, min_int_val. cbn. lia. }
  assert (H : PrintRect "" demo_mem demo_frame r = Ok (out, out)) by reflexivity.
  split; [exact Hlo|]. split; [exact Hhi|]. split; [exact H|].
  destruct (PrintRect_rows "" demo_mem demo_frame r out out Hlo Hhi H)
    as (rows & HE & Hout & HF & _).
  exists rows. split; [exact HE|]. split; [exact Hout|exact HF].
Defined.

Lemma PutText_panics_witness :
  let vals := [IString [104; 105]; IColor (Color_ 0 RED BLACK); IOther] in
  allocated demo_mem (Data demo_frame) /\ storage_invariant demo_frame /\
  reaches_other demo_frame 0 1 vals /\
  PutText demo_mem demo_frame 0 1 vals = Panic PutText_msg /\
  ~ reaches_other demo_frame 1 1 vals /\
  exists m', PutText demo_mem demo_frame 1 1 vals = Ok m'.
Proof.
  intros vals. assert (Hwf : wf demo_mem demo_frame) by demo_wf.
  assert (Hreach : reaches_other demo_frame 0 1 vals).
  { split; [cbn; lia|]. exists 2%nat. split; [reflexivity|].
    intros [|[|[|j]]] Hj; try lia; vm_compute; reflexivity. }
  assert (Hnot : ~ reaches_other demo_frame 1 1 vals).
  { intros [_ (i & Hi & H)]. destruct i as [|[|[|i]]]; try discriminate.
    specialize (H 1%nat). vm_compute in H. specialize (H (le_S _ _ (le_n _))).
    discriminate H. }
  destruct Hwf as [Hok Hal].
  pose proof (frame_ok_storage_invariant demo_frame Hok) as Hinv.
  split; [exact Hal|]. split; [exact Hinv|]. split; [exact Hreach|].
  destruct (PutText_panics demo_mem demo_frame 0 1 vals Hal Hinv) as [HP _].
  split; [exact (HP Hreach)|]. split; [exact Hnot|].
  destruct (PutText_panics demo_mem demo_frame 1 1 vals Hal Hinv) as [_ HO].
  exact (HO Hnot).
Defined.

End Witnesses.

(** * Further properties of the packages *)

(** ** Writing through one frame, reading through another *)

Section Views.
Import image console frame.

Lemma shows_refl f : frame_ok f -> shows f f.
Proof. intros Hok. split; [exact Hok|]. split; [done|]. done. Qed.

Lemma SubFrame_shows f r g : frame_ok f -> SubFrame f r = Ok g -> shows f g.
Proof.
  intros Hok Hg.
  destruct (SubFrame_spec f r Hok) as (g' & Hg' & Hokg & Hal & _ & Hsh).
  rewrite Hg in Hg'. injection Hg' as <-. by split.
Qed.

Lemma shows_wf m f g : wf m f -> shows f g -> wf m g.
Proof. intros [_ Hal] (Hok & Hal' & _). split; auto. Qed.

Lemma Intersect_empty_ZR r s : Empty (Intersect r s) = true -> Intersect r s = ZR.
Proof.
  unfold Intersect. destruct (Empty (Rectangle_ _ _)) eqn:E; [done|].
  intros H. congruence.
Qed.

Lemma SubFrame_Bounds f r g :
  SubFrame f r = Ok g -> Bounds g = Intersect r (Bounds f).
Proof.
  unfold SubFrame. destruct (Empty (Intersect r (Bounds f))) eqn:HE.
  - intros [= <-]. by rewrite Intersect_empty_ZR.
  - destruct (slice_from _ _); cbn [mbind Result_bind]; [|discriminate].
    by intros [= <-].
Qed.

(** A write through [g], read through a frame [f] that shows [g]. *)
Lemma Set_through m f g x y c :
  wf m f -> shows f g ->
  exists m', Set_ m g x y c = Ok m' /\ wf m' f /\ length m' = length m /\
    forall x' y',
      At m' f x' y' =
        if In (Pt x y) (Bounds g) && (x' =? x) && (y' =? y) then Ok c
        else At m f x' y'.
Proof.
  intros Hwf Hsh. pose proof (shows_wf m f g Hwf Hsh) as Hwg.
  destruct (In (Pt x y) (Bounds g)) eqn:HIn.
  - destruct Hsh as (_ & _ & Hsh). destruct (Hsh x y HIn) as [HInf Haddr].
    destruct (Set_At m f x y c Hwf) as (m' & HS & Hwf' & HL & HA).
    exists m'. rewrite Set_inside, Haddr, <- (Set_inside m f) by done.
    split; [exact HS|]. split; [exact Hwf'|]. split; [exact HL|].
    intros x' y'. rewrite HA, HInf. reflexivity.
  - exists m. rewrite Set_outside by done. done.
Qed.

Lemma FillRect_through m f g r c :
  wf m f -> shows f g ->
  exists m', FillRect m g r c = Ok m' /\ wf m' f /\ length m' = length m /\
    forall x y,
      At m' f x y = if In (Pt x y) (Intersect (Bounds g) r) then Ok c
                    else At m f x y.
Proof.
  intros Hwf Hsh. unfold FillRect. set (r' := Intersect (Bounds g) r).
  destruct (Empty r') eqn:HE.
  - exists m. split; [reflexivity|]. split; [exact Hwf|]. split; [reflexivity|].
    intros x y. destruct (In (Pt x y) r') eqn:H; [|reflexivity].
    apply In_nonempty in H. congruence.
  - assert (Hsub : forall p, In p r' = true -> In p (Bounds g) = true).
    { intros p H. unfold r' in H. rewrite In_Intersect in H.
      by apply andb_true_iff in H as [H _]. }
    assert (Hrow : forall y0 m0, wf m0 f ->
      exists m', foldM (fun x m => Set_ m g x y0 c)
                       (range (X (Min r')) (X (Max r'))) m0 = Ok m' /\
        wf m' f /\ length m' = length m0 /\
        forall x y, At m' f x y =
          if existsb (fun x0 => In (Pt x0 y0) (Bounds g) && (x =? x0) && (y =? y0))
                     (range (X (Min r')) (X (Max r')))
          then Ok c else At m0 f x y).
    { intros y0 m0 Hwf0.
      apply (foldM_paint f c (fun x m => Set_ m g x y0 c)
               (fun x0 x y => In (Pt x0 y0) (Bounds g) && (x =? x0) && (y =? y0)));
        [|exact Hwf0].
      intros x0 m1 Hwf1. by apply Set_through. }
    destruct (foldM_paint f c _ _ Hrow (range (Y (Min r')) (Y (Max r'))) m Hwf)
      as (m' & E & Hwf' & HL & HA).
    exists m'. split; [exact E|]. split; [exact Hwf'|]. split; [exact HL|].
    intros x y. by rewrite HA, fill_hit.
Qed.

(** X1: [Fill] returns on a well-formed frame and leaves it well-formed,
    after which every point inside the bounds reads the fill cell (and
    every point outside still reads the zero cell). *)
Theorem Fill_reads m f c :
  wf m f ->
  exists m', Fill m f c = Ok m' /\ wf m' f /\
    forall x y,
      At m' f x y = Ok (if In (Pt x y) (Bounds f) then c else zeroCell).
Proof.
  intros Hwf. destruct Hwf as [Hok Hal].
  destruct (FillRect_through m f f (Bounds f) c (conj Hok Hal) (shows_refl f Hok))
    as (m' & E & Hwf' & _ & HA).
  exists m'. split; [exact E|]. split; [exact Hwf'|].
  intros x y. rewrite HA, In_Intersect, andb_diag.
  destruct (In (Pt x y) (Bounds f)) eqn:HIn; [reflexivity|].
  by apply At_outside.
Qed.

(** X2: filling a rectangle through a sub-frame changes, as read through
    the parent, exactly the points of the rectangle that lie in the
    sub-frame's bounds; a parent cell outside the sub-frame's bounds is
    never changed, however large the rectangle. *)
Theorem SubFrame_FillRect_parent m f r0 g r c :
  wf m f -> SubFrame f r0 = Ok g ->
  exists m', FillRect m g r c = Ok m' /\
    (forall x y,
       At m' f x y = if In (Pt x y) (Bounds g) && In (Pt x y) r then Ok c
                     else At m f x y) /\
    (forall x y, In (Pt x y) (Bounds g) = false -> At m' f x y = At m f x y).
Proof.
  intros Hwf Hg. pose proof (SubFrame_shows f r0 g (proj1 Hwf) Hg) as Hsh.
  destruct (FillRect_through m f g r c Hwf Hsh) as (m' & E & _ & _ & HA).
  exists m'. split; [exact E|]. split.
  - intros x y. by rewrite HA, In_Intersect.
  - intros x y H. by rewrite HA, In_Intersect, H.
Qed.

End Views.

(** ** Allocation and sub-frames *)

Section Allocation.
Import image console frame.

Lemma New_exact m r :
  exact_area r ->
  New m r =
    if width r * height r <? 0 then Panic "makeslice: len out of range"
    else Ok (m ++ replicate (Z.to_nat (width r * height r)) zeroCell,
             Frame_ (Slice_ (length m) (width r * height r)) r (width r)).
Proof.
  intros (HW & HH & HA). unfold New, make, Dx, Dy, Int.mul, Int.sub.
  fold (width r) (height r).
  rewrite (wrap_small (width r)), (wrap_small (height r)),
    (wrap_small (width r * height r)) by done.
  by destruct (width r * height r <? 0).
Qed.

Lemma wf_grow m m' f : wf m f -> (length m <= length m')%nat -> wf m' f.
Proof. intros [Hok Hal] HL. split; [exact Hok|]. unfold allocated in *. lia. Qed.

(** Reading through [f] does not see a write to a cell that is none of
    its own. *)
Lemma At_insert_other m f a c x y :
  wf m f -> (In (Pt x y) (Bounds f) = true -> addr f x y <> a) ->
  At (<[a := c]> m) f x y = At m f x y.
Proof.
  intros Hwf Hne. destruct (In (Pt x y) (Bounds f)) eqn:HIn.
  - destruct (At_inside _ f x y (wf_insert m f a c Hwf) HIn) as (c1 & H1 & ->).
    destruct (At_inside m f x y Hwf HIn) as (c2 & H2 & ->).
    rewrite list_lookup_insert_ne in H1 by (intros E; by apply Hne).
    congruence.
  - by rewrite !At_outside.
Qed.


(** X4: the storage of a root frame is its own: in every later memory, a
    write through the new root is not seen through a frame that existed
    before it, and a write through such a frame is not seen through the
    new root. *)
Theorem New_exclusive m r m1 f g m2 x y c :
  exact_area r -> New m r = Ok (m1, f) -> wf m g ->
  (length m1 <= length m2)%nat ->
  (exists m3, Set_ m2 f x y c = Ok m3 /\
     forall x' y', At m3 g x' y' = At m2 g x' y') /\
  (exists m3, Set_ m2 g x y c = Ok m3 /\
     forall x' y', At m3 f x' y' = At m2 f x' y').
Proof.
  intros Hr HN Hg HL. pose proof (New_wf m r m1 f Hr HN) as Hf.
  assert (Hlen : (length m <= length m1)%nat).
  { rewrite New_exact in HN by done. destruct (_ <? 0); [discriminate|].
    injection HN as <- _. rewrite length_app. lia. }
  assert (Hptr : ptr (Data f) = length m).
  { rewrite New_exact in HN by done. destruct (_ <? 0); [discriminate|].
    by injection HN as _ <-. }
  assert (Hf2 : wf m2 f) by (by apply (wf_grow m1)).
  assert (Hg2 : wf m2 g) by (apply (wf_grow m); [done|lia]).
  assert (Hdisj : forall x1 y1 x2 y2,
            In (Pt x2 y2) (Bounds g) = true -> addr f x1 y1 <> addr g x2 y2).
  { intros x1 y1 x2 y2 HIn. pose proof (addr_lt m g x2 y2 Hg HIn).
    unfold addr at 1. lia. }
  split.
  - destruct (In (Pt x y) (Bounds f)) eqn:HIn.
    + exists (<[addr f x y := c]> m2). split; [by apply Set_inside|].
      intros x' y'. apply At_insert_other; [done|].
      intros HIn' E. by apply (Hdisj x y x' y').
    + exists m2. split; [by apply Set_outside|done].
  - destruct (In (Pt x y) (Bounds g)) eqn:HIn.
    + exists (<[addr g x y := c]> m2). split; [by apply Set_inside|].
      intros x' y'. apply At_insert_other; [done|].
      intros _ E. by apply (Hdisj x' y' x y).
    + exists m2. split; [by apply Set_outside|done].
Qed.

(** A rectangle that is [ZR] or not empty is determined by its points. *)
Lemma Rectangle_ext r s :
  (Empty r = false \/ r = ZR) -> (Empty s = false \/ s = ZR) ->
  (forall p, In p r = In p s) -> r = s.
Proof.
  intros Hr Hs HIn.
  assert (HZ : forall p, In p ZR = false).
  { intros p. apply In_false. cbn. lia. }
  assert (Hcorner : forall t, Empty t = false ->
            In (Min t) t = true /\
            In (Pt (X (Max t) - 1) (Y (Max t) - 1)) t = true).
  { intros t Ht. apply Empty_false in Ht. rewrite !In_spec. cbn [X Y]. lia. }
  destruct Hr as [Hr | ->], Hs as [Hs | ->]; [| | |reflexivity].
  - destruct (Hcorner r Hr) as [R0 R1], (Hcorner s Hs) as [S0 S1].
    pose proof R0 as R0'. pose proof R1 as R1'.
    rewrite HIn in R0', R1'. rewrite <- HIn in S0, S1.
    apply In_spec in R0', R1', S0, S1. cbn [X Y] in *.
    destruct r as [[rx0 ry0] [rx1 ry1]], s as [[sx0 sy0] [sx1 sy1]].
    cbn [X Y Min Max] in *. f_equal; f_equal; lia.
  - destruct (Hcorner r Hr) as [R0 _]. rewrite HIn, HZ in R0. discriminate.
  - destruct (Hcorner s Hs) as [S0 _]. rewrite <- HIn, HZ in S0. discriminate.
Qed.

Lemma Intersect_normal r s :
  Empty (Intersect r s) = false \/ Intersect r s = ZR.
Proof.
  destruct (Empty (Intersect r s)) eqn:E; [right|by left].
  by apply Intersect_empty_ZR.
Qed.

Lemma Intersect_assoc a b c :
  Intersect a (Intersect b c) = Intersect (Intersect a b) c.
Proof.
  apply Rectangle_ext; try apply Intersect_normal.
  intros p. rewrite !In_Intersect. apply andb_assoc.
Qed.

(** The sub-frame of a non-empty intersection, written out. *)
Lemma SubFrame_nonempty f r :
  frame_ok f -> Empty (Intersect r (Bounds f)) = false ->
  exists off,
    off = (Y (Min (Intersect r (Bounds f))) - Y (Min (Bounds f))) * Stride f
          + (X (Min (Intersect r (Bounds f))) - X (Min (Bounds f))) /\
    0 <= off < len (Data f) /\
    SubFrame f r =
      Ok (Frame_ (Slice_ (ptr (Data f) + Z.to_nat off) (len (Data f) - off))
                 (Intersect r (Bounds f)) (Stride f)).
Proof.
  intros Hok HE. set (q := Intersect r (Bounds f)) in *.
  assert (Hq : In (Pt (X (Min q)) (Y (Min q))) (Bounds f) = true).
  { assert (In (Pt (X (Min q)) (Y (Min q))) q = true) as H.
    { apply Empty_false in HE. apply In_spec. cbn [X Y]. lia. }
    unfold q in H at 3. rewrite In_Intersect in H.
    by apply andb_true_iff in H as [_ H]. }
  destruct (CellOffset_exact f _ _ Hok Hq) as [E Rg].
  eexists. split; [reflexivity|]. rewrite <- E. split; [exact Rg|].
  unfold SubFrame. fold q. rewrite HE. unfold slice_from.
  replace (0 <=? _) with true by lia. replace (_ <=? len (Data f)) with true by lia.
  reflexivity.
Qed.

Lemma Intersect_ZR_r r : Intersect r ZR = ZR.
Proof.
  destruct (Intersect_normal r ZR) as [H|H]; [|exact H].
  apply Empty_false in H.
  assert (In (Min (Intersect r ZR)) (Intersect r ZR) = true) as HIn
    by (apply In_spec; lia).
  rewrite In_Intersect in HIn. apply andb_true_iff in HIn as [_ HIn].
  apply In_spec in HIn. cbn in HIn. lia.
Qed.

(** X5: a sub-frame of a sub-frame is the sub-frame of the intersection of
    the two rectangles: the same bounds, the same stride and the same view
    of the storage. *)
Theorem SubFrame_SubFrame f r1 g r2 :
  frame_ok f -> SubFrame f r1 = Ok g ->
  SubFrame g r2 = SubFrame f (Intersect r2 r1).
Proof.
  intros Hok Hg.
  destruct (Empty (Intersect r1 (Bounds f))) eqn:E1.
  - assert (g = zeroFrame) as ->.
    { unfold SubFrame in Hg. rewrite E1 in Hg. by injection Hg. }
    unfold SubFrame.
    rewrite <- Intersect_assoc, (Intersect_empty_ZR r1 (Bounds f) E1).
    cbn [Bounds zeroFrame]. by rewrite Intersect_ZR_r.
  - destruct (SubFrame_spec f r1 Hok) as (g' & Hg' & Hokg & _).
    rewrite Hg in Hg'. injection Hg' as <-.
    destruct (SubFrame_nonempty f r1 Hok E1) as (off1 & Eoff1 & R1 & Hg1).
    rewrite Hg in Hg1. injection Hg1 as ->.
    set (q1 := Intersect r1 (Bounds f)) in *.
    destruct (Empty (Intersect r2 q1)) eqn:E2.
    + unfold SubFrame. cbn [Bounds].
      rewrite <- Intersect_assoc. fold q1. by rewrite E2.
    + destruct (SubFrame_nonempty _ r2 Hokg E2) as (off2 & Eoff2 & R2 & ->).
      assert (E2' : Empty (Intersect (Intersect r2 r1) (Bounds f)) = false)
        by (by rewrite <- Intersect_assoc).
      destruct (SubFrame_nonempty f _ Hok E2') as (off & Eoff & R & ->).
      cbn [Data Bounds Stride ptr len] in *.
      rewrite <- Intersect_assoc in Eoff |- *. fold q1 in Eoff |- *.
      assert (off = off1 + off2) as -> by (subst off off1 off2; ring).
      f_equal. f_equal. f_equal.
      * rewrite Z2Nat.inj_add by lia. lia.
      * lia.
Qed.

(** X6: cutting a non-empty frame with a rectangle that contains its bounds
    gives the frame itself back. *)
Theorem SubFrame_self f r :
  frame_ok f -> Empty (Bounds f) = false ->
  (forall p, In p (Bounds f) = true -> In p r = true) ->
  SubFrame f r = Ok f.
Proof.
  intros Hok HE Hsub.
  assert (HI : Intersect r (Bounds f) = Bounds f).
  { apply Rectangle_ext; [apply Intersect_normal | by left |].
    intros p. rewrite In_Intersect.
    destruct (In p (Bounds f)) eqn:H; [by rewrite (Hsub p H)|apply andb_false_r]. }
  unfold SubFrame. rewrite HI, HE.
  assert (H0 : In (Pt (X (Min (Bounds f))) (Y (Min (Bounds f)))) (Bounds f) = true).
  { apply Empty_false in HE. apply In_spec. cbn [X Y]. lia. }
  destruct (CellOffset_exact f _ _ Hok H0) as [E R].
  rewrite E, !Z.sub_diag, Z.mul_0_l. unfold slice_from.
  replace (0 + 0) with 0 by lia.
  replace (0 <=? len (Data f)) with true by lia.
  cbn [Z.leb Z.compare andb mbind Result_bind]. rewrite Z.sub_0_r.
  change (Z.to_nat 0) with 0%nat. rewrite Nat.add_0_r.
  destruct f as [[p l] B s]. reflexivity.
Qed.

End Allocation.

(** ** The text written by [PutText] *)

Section WrittenText.
Import image console frame.

Lemma texted_nil f m x y : texted f m m x y [].
Proof.
  intros x' y'. unfold text_at. rewrite lookup_nil. by destruct (_ && _).
Qed.

(** Nothing of a text laid out from the right bound on, or on a row
    outside the bounds, falls inside the frame. *)
Lemma texted_outside f m x y txt :
  X (Max (Bounds f)) <= x \/ ~ (Y (Min (Bounds f)) <= y < Y (Max (Bounds f))) ->
  texted f m m x y txt.
Proof.
  intros H x' y'. unfold text_at.
  destruct (y' =? y) eqn:Ey, (x <=? x') eqn:Ex,
           (In (Pt x' y') (Bounds f)) eqn:HIn; cbn [andb]; try reflexivity.
  exfalso. apply In_spec in HIn. cbn [X Y] in HIn. lia.
Qed.

Lemma texted_app f m m1 m2 x y t1 t2 :
  texted f m m1 x y t1 ->
  texted f m1 m2 (x + Z.of_nat (length t1)) y t2 ->
  texted f m m2 x y (t1 ++ t2).
Proof.
  intros H1 H2 x' y'. rewrite H2, H1. unfold text_at.
  destruct (y' =? y) eqn:Ey; cbn [andb]; [|reflexivity].
  destruct (In (Pt x' y') (Bounds f)) eqn:HIn;
    [|by rewrite !andb_false_r].
  rewrite !andb_true_r.
  destruct (x <=? x') eqn:Ex.
  - destruct (x + Z.of_nat (length t1) <=? x') eqn:Ex1.
    + rewrite lookup_app_r by lia.
      replace (Z.to_nat (x' - x) - length t1)%nat
        with (Z.to_nat (x' - (x + Z.of_nat (length t1)))) by lia.
      destruct (t2 !! _); [reflexivity|].
      by rewrite (lookup_ge_None_2 t1) by lia.
    + by rewrite lookup_app_l by lia.
  - destruct (x + Z.of_nat (length t1) <=? x') eqn:Ex1; [|reflexivity].
    exfalso. apply Z.leb_le in Ex1. apply Z.leb_gt in Ex. lia.
Qed.

Lemma Set_texted m f x y c :
  wf m f ->
  exists m', Set_ m f x y c = Ok m' /\ wf m' f /\ texted f m m' x y [c].
Proof.
  intros Hwf. destruct (Set_At m f x y c Hwf) as (m' & HS & Hwf' & _ & HA).
  exists m'. split; [exact HS|]. split; [exact Hwf'|].
  intros x' y'. rewrite HA. unfold text_at.
  destruct (y' =? y) eqn:Ey; [|by rewrite !andb_false_r].
  apply Z.eqb_eq in Ey. subst y'.
  destruct (x' =? x) eqn:Ex.
  - apply Z.eqb_eq in Ex. subst x'. rewrite Z.leb_refl, Z.sub_diag.
    by destruct (In (Pt x y) (Bounds f)).
  - rewrite andb_false_r. cbn [andb].
    destruct (x <=? x') eqn:Ex'; [|reflexivity].
    destruct (In (Pt x' y) (Bounds f)); [|reflexivity]. cbn [andb].
    destruct (Z.to_nat (x' - x)) as [|k] eqn:Ek; [lia|reflexivity].
Qed.

Lemma put_runes_texted m f y col o x :
  wf m f -> Int.min_int <= x -> x + Z.of_nat (length o) <= Int.max_int ->
  exists m', foldM (put_rune f y col) o (m, x)
             = Ok (m', x + Z.of_nat (length o)) /\
    wf m' f /\ texted f m m' x y (map (fun r => Cell_ r col) o).
Proof.
  revert m x. induction o as [|r o IH]; intros m x Hwf Hlo Hhi.
  - exists m. cbn [length map foldM]. rewrite Z.add_0_r.
    split; [reflexivity|]. split; [exact Hwf|apply texted_nil].
  - cbn [length] in Hhi.
    destruct (Set_texted m f x y (Cell_ r col) Hwf) as (m1 & E1 & Hwf1 & T1).
    destruct (IH m1 (x + 1) Hwf1) as (m' & E' & Hwf' & T'); [lia..|].
    exists m'. cbn [foldM put_rune]. rewrite E1. cbn [mbind Result_bind].
    unfold Int.add. rewrite wrap_small by (unfold Int.in_range; lia).
    rewrite E'. split; [f_equal; f_equal; cbn [length]; lia|].
    split; [exact Hwf'|].
    change (map _ (r :: o)) with ([Cell_ r col] ++ map (fun r => Cell_ r col) o).
    by eapply texted_app.
Qed.

Lemma PutText_loop_texted f y vals m x col :
  wf m f -> Forall (fun v => v <> IOther) vals ->
  Int.min_int <= x -> x + Z.of_nat (length (styled col vals)) <= Int.max_int ->
  exists m', PutText_loop f y vals m x col = Ok m' /\ wf m' f /\
             texted f m m' x y (styled col vals).
Proof.
  intros Hwf Hvals. revert m x col Hwf.
  induction Hvals as [|v vals Hv _ IH]; intros m x col Hwf Hlo Hhi.
  - exists m. split; [reflexivity|]. split; [exact Hwf|apply texted_nil].
  - cbn [PutText_loop]. destruct (X (Max (Bounds f)) <=? x) eqn:Hx.
    { exists m. split; [reflexivity|]. split; [exact Hwf|].
      apply texted_outside. left. lia. }
    destruct v as [o|o|]; [| |done]; cbn [styled] in Hhi |- *.
    + rewrite length_app, length_map in Hhi.
      destruct (put_runes_texted m f y col o x Hwf) as (m1 & E1 & Hwf1 & T1);
        [lia..|].
      rewrite E1. cbn [mbind Result_bind].
      destruct (IH m1 (x + Z.of_nat (length o)) col Hwf1) as (m' & E' & Hwf' & T');
        [lia..|].
      exists m'. split; [exact E'|]. split; [exact Hwf'|].
      eapply texted_app; [exact T1|]. by rewrite length_map.
    + by apply IH.
Qed.

(** X7: for items that are strings and colours, [PutText] returns, keeps
    the frame well-formed, and lays the runes of the strings out from
    [(x, y)] to the right, one column each, every rune in the colour of the
    last colour item before it (the zero colour at first); a point of the
    frame on which no rune falls reads as before, and runes that fall
    outside the bounds are dropped. *)
Theorem PutText_writes m f x y vals :
  wf m f -> Forall (fun v => v <> IOther) vals ->
  Int.min_int <= x ->
  x + Z.of_nat (length (styled (Color_ 0 0 0) vals)) <= Int.max_int ->
  exists m', PutText m f x y vals = Ok m' /\ wf m' f /\
    forall x' y',
      At m' f x' y' =
        match text_at f x y (styled (Color_ 0 0 0) vals) x' y' with
        | Some c => Ok c
        | None => At m f x' y'
        end.
Proof.
  intros Hwf Hvals Hlo Hhi. unfold PutText.
  destruct ((y <? Y (Min (Bounds f))) || (Y (Max (Bounds f)) <=? y)) eqn:Hy.
  - exists m. split; [reflexivity|]. split; [exact Hwf|].
    apply texted_outside. right. apply orb_true_iff in Hy. lia.
  - by apply PutText_loop_texted.
Qed.

End WrittenText.

(** ** Printing a cleared frame *)

Section BlankPrinting.
Import image console frame.

Lemma PrintRect_events_total m f r :
  (forall x y, exists cell, At m f x y = Ok cell /\ valid_color (C cell)) ->
  exists evs, PrintRect_events m f r = Ok evs.
Proof.
  intros HAt. unfold PrintRect_events.
  destruct (foldM_total (fun _ => True) (print_row_events m f r)) with
    (l := range (Y (Min r)) (Y (Max r))) (s := (Color_ 0 0 0, @nil Event))
    as ([col evs] & E & _); [|done|].
  - intros y [col evs] _. unfold print_row_events.
    apply (foldM_total (fun _ => True)); [|done].
    intros x [c es] _. unfold print_cell_events.
    destruct (HAt x y) as (cell & -> & (Ha & Hf & Hb)).
    cbn [mbind Result_bind]. destruct (negb _); [|eauto].
    unfold String_. rewrite FormatColor_in_range by done.
    cbn [mbind Result_bind]. eauto.
  - rewrite E. cbn [mbind Result_bind]. eauto.
Qed.

Lemma run_length_blank m f evs :
  (forall x y cell, At m f x y = Ok cell ->
                    C cell = Color_ 0 0 0 /\ glyph cell = 32) ->
  run_length m f evs ->
  Forall blank_event evs /\ last_color evs = Color_ 0 0 0.
Proof.
  intros HAt. induction 1 as [|evs l k _ [IH1 IH2]|evs x y cell _ [IH1 IH2] HA _
                              |evs x y cell cd _ [IH1 IH2] HA Hne _].
  - split; [constructor|reflexivity].
  - split; [|by rewrite last_color_snoc_move].
    apply Forall_app. split; [exact IH1|]. by repeat constructor.
  - split; [|by rewrite last_color_snoc_cell].
    apply Forall_app. split; [exact IH1|].
    repeat constructor. by destruct (HAt x y cell HA).
  - destruct (HAt x y cell HA) as [Hc _]. congruence.
Qed.

(** X8: after [Clear], printing any rectangle, inside the bounds or not,
    returns and emits nothing but cursor moves and spaces: no colour
    sequence at all. *)
Theorem Clear_PrintRect_blank printBuf m f r :
  wf m f ->
  exists m' evs,
    Clear m f = Ok m' /\
    PrintRect_events m' f r = Ok evs /\
    PrintRect printBuf m' f r = Ok (trace_bytes evs, trace_bytes evs) /\
    Forall blank_event evs.
Proof.
  intros Hwf. destruct Hwf as [Hok Hal].
  destruct (FillRect_through m f f (Bounds f) (Cell_ 32 (Color_ 0 0 0))
              (conj Hok Hal) (shows_refl f Hok)) as (m' & E & Hwf' & _ & HA).
  assert (Hcells : forall x y cell, At m' f x y = Ok cell ->
                     C cell = Color_ 0 0 0 /\ glyph cell = 32).
  { intros x y cell. rewrite HA, In_Intersect, andb_diag.
    destruct (In (Pt x y) (Bounds f)) eqn:HIn.
    - intros [= <-]. done.
    - rewrite At_outside by done. intros [= <-]. done. }
  destruct (PrintRect_events_total m' f r) as (evs & HE).
  { intros x y. destruct (At m' f x y) as [cell|p] eqn:HC.
    - exists cell. split; [reflexivity|].
      destruct (Hcells x y cell HC) as [-> _]. unfold valid_color. cbn. lia.
    - exfalso. revert HC. rewrite HA.
      destruct (In (Pt x y) (Intersect (Bounds f) (Bounds f))); [done|].
      destruct (In (Pt x y) (Bounds f)) eqn:HIn.
      + by destruct (At_inside m f x y (conj Hok Hal) HIn) as (c & _ & ->).
      + by rewrite At_outside. }
  exists m', evs. split; [exact E|]. split; [exact HE|].
  split; [by rewrite PrintRect_bytes, HE|].
  apply (run_length_blank m' f evs Hcells).
  by apply (PrintRect_events_run_length m' f r).
Qed.

End BlankPrinting.

(** ** More on the key decoder *)

Section KeyCodes.
Import console.

Ltac split_ascii b := destruct b as [[] [] [] [] [] [] [] []].

Lemma parseCSI_values rest :
  parseCSI rest = 0 \/ List.In (parseCSI rest) named_keys.
Proof.
  unfold parseCSI. destruct rest as [|b rest]; [by left|].
  repeat match goal with
         | |- context [if ?c then _ else _] => destruct c
         end;
    first [ by left | right; cbn; tauto ].
Qed.

Lemma parseSS3_values rest :
  parseSS3 rest = 0 \/ List.In (parseSS3 rest) named_keys.
Proof.
  unfold parseSS3. destruct rest as [|b rest]; [by left|].
  repeat match goal with
         | |- context [if ?c then _ else _] => destruct c
         end;
    first [ by left | right; cbn; tauto ].
Qed.

(** X9: the code returned by the decoder is a byte value, 0 to 255, or one
    of the ten named keys, none of which is a byte value; and a named key
    is only ever returned for a buffer that starts with ESC '[' or
    ESC 'O'. *)
Theorem parseKey_codes buf :
  (0 <= parseKey buf <= 255 \/ List.In (parseKey buf) named_keys) /\
  (forall k, List.In k named_keys -> 255 < k) /\
  (255 < parseKey buf ->
   exists c rest, buf = String ESC_byte (String c rest) /\
                  (c = "["%char \/ c = "O"%char)).
Proof.
  split; [|split].
  - destruct buf as [|b rest]; [left; cbn; lia|].
    unfold parseKey. destruct (Ascii.eqb b ESC_byte) eqn:Eb.
    + unfold parseESC. destruct rest as [|c rest]; [left; unfold K_ESCAPE; lia|].
      destruct (Ascii.eqb c "[").
      * destruct (parseCSI_values rest) as [-> | H]; [left; lia | by right].
      * destruct (Ascii.eqb c "O"); [|left; lia].
        destruct (parseSS3_values rest) as [-> | H]; [left; lia | by right].
    + left. unfold byte_val. pose proof (N_ascii_bounded b). lia.
  - intros k Hk. cbn in Hk.
    repeat (destruct Hk as [<- | Hk]; [reflexivity|]). contradiction.
  - destruct buf as [|b rest]; [cbn; lia|].
    unfold parseKey. destruct (Ascii.eqb b ESC_byte) eqn:Eb.
    + apply Ascii.eqb_eq in Eb. subst b.
      unfold parseESC. destruct rest as [|c rest]; [unfold K_ESCAPE; lia|].
      destruct (Ascii.eqb c "[") eqn:Ec.
      * apply Ascii.eqb_eq in Ec. subst c. intros _. eauto.
      * destruct (Ascii.eqb c "O") eqn:Ec'; [|lia].
        apply Ascii.eqb_eq in Ec'. subst c. intros _. eauto.
    + intros H. exfalso. unfold byte_val in H.
      pose proof (N_ascii_bounded b). lia.
Qed.

(** X10: bytes that follow a recognised sequence are treated differently
    by the two tables: after ESC 'O' 'H' or ESC 'O' 'F' they are ignored,
    while after ESC '[' and a key of the CSI table any further byte makes
    the sequence unknown. *)
Theorem parseKey_trailing_bytes rest :
  parseKey (_ESC +:+ "OH" +:+ rest) = K_HOME /\
  parseKey (_ESC +:+ "OF" +:+ rest) = K_END /\
  (rest <> "" ->
   forall k, List.In k ["A"; "B"; "C"; "D"; "2~"; "3~"; "5~"; "6~"] ->
     parseKey (_CSI +:+ k +:+ rest) = 0).
Proof.
  split; [reflexivity|]. split; [reflexivity|].
  intros Hrest k Hk. destruct rest as [|c rest]; [done|].
  cbn in Hk.
  repeat (destruct Hk as [<- | Hk]; [reflexivity|]). contradiction.
Qed.

End KeyCodes.

(** ** Raw mode *)

Section RawMode.
Import syscall termios.

Lemma testbit_uint32_high x n :
  Uint32.in_range x -> 32 <= n -> Z.testbit x n = false.
Proof.
  intros Hx Hn. unfold Uint32.in_range in Hx.
  rewrite <- (Z.mod_small x (2 ^ 32)) by lia.
  apply Z.mod_pow2_bits_high. lia.
Qed.

(** Clearing the bits of [mask] in a [uint32]. *)
Lemma clear_bits_spec x mask n :
  Uint32.in_range x -> 0 <= n ->
  Z.testbit (Z.land x (Uint32.not mask)) n
  = Z.testbit x n && negb (Z.testbit mask n).
Proof.
  intros Hx Hn. unfold Uint32.not.
  rewrite Z.land_spec, Z.lxor_spec, Z.testbit_ones_nonneg by lia.
  destruct (n <? 32) eqn:E.
  - by rewrite xorb_true_r.
  - rewrite (testbit_uint32_high x n) by (done || lia). reflexivity.
Qed.

Lemma clear_bits_twice x mask :
  Z.land (Z.land x (Uint32.not mask)) (Uint32.not mask)
  = Z.land x (Uint32.not mask).
Proof. by rewrite <- Z.land_assoc, Z.land_diag. Qed.

Lemma clear_set_twice x mask v :
  Z.lor (Z.land (Z.lor (Z.land x (Uint32.not mask)) v) (Uint32.not mask)) v
  = Z.lor (Z.land x (Uint32.not mask)) v.
Proof.
  apply Z.bits_inj'. intros n Hn.
  rewrite !Z.lor_spec, !Z.land_spec, !Z.lor_spec, !Z.land_spec.
  destruct (Z.testbit x n), (Z.testbit (Uint32.not mask) n), (Z.testbit v n);
    reflexivity.
Qed.

Lemma insert_pair_twice (l : list Z) i j a b :
  i <> j ->
  <[j := b]> (<[i := a]> (<[j := b]> (<[i := a]> l))) = <[j := b]> (<[i := a]> l).
Proof.
  intros Hij. rewrite (list_insert_insert_ne _ i j) by done.
  by rewrite !list_insert_insert_eq.
Qed.

(** X11: [rawMode] is idempotent: applied to a terminal state that is
    already in raw mode it changes nothing. *)
Theorem rawMode_idempotent t : rawMode (rawMode t) = rawMode t.
Proof.
  unfold rawMode. cbn [Iflag Oflag Cflag Lflag Line Cc Ispeed Ospeed].
  rewrite !clear_bits_twice, clear_set_twice.
  rewrite (insert_pair_twice (Cc t)) by (vm_compute; discriminate).
  reflexivity.
Qed.

(** X12: what [rawMode] does to a terminal state whose flags are [uint32]
    values and which has its 32 control characters: in the input, output
    and local flags exactly the bits of the respective mask are cleared
    (among them ECHO, ICANON and ISIG) and every other bit is kept; in the
    control flags the parity bit is cleared and the character size is set
    to 8 bits; VMIN becomes 1 and VTIME 0, the other control characters,
    the line discipline and the speeds being kept. *)
Theorem rawMode_spec t :
  Uint32.in_range (Iflag t) -> Uint32.in_range (Oflag t) ->
  Uint32.in_range (Cflag t) -> Uint32.in_range (Lflag t) ->
  length (Cc t) = 32%nat ->
  let t' := rawMode t in
  (forall n, 0 <= n ->
     Z.testbit (Iflag t') n = Z.testbit (Iflag t) n && negb (Z.testbit iflag_mask n) /\
     Z.testbit (Oflag t') n = Z.testbit (Oflag t) n && negb (Z.testbit oflag_mask n) /\
     Z.testbit (Lflag t') n = Z.testbit (Lflag t) n && negb (Z.testbit lflag_mask n) /\
     Z.testbit (Cflag t') n
       = (Z.testbit (Cflag t) n && negb (Z.testbit cflag_mask n)) || Z.testbit CS8 n) /\
  Z.land (Lflag t') ECHO = 0 /\ Z.land (Lflag t') ICANON = 0 /\
  Z.land (Lflag t') ISIG = 0 /\ Z.land (Cflag t') CSIZE = CS8 /\
  Cc t' !! Z.to_nat VMIN = Some 1 /\ Cc t' !! Z.to_nat VTIME = Some 0 /\
  (forall i, i <> Z.to_nat VMIN -> i <> Z.to_nat VTIME -> Cc t' !! i = Cc t !! i) /\
  length (Cc t') = 32%nat /\
  Line t' = Line t /\ Ispeed t' = Ispeed t /\ Ospeed t' = Ospeed t.
Proof.
  intros HI HO HC HL Hcc t'.
  assert (Hbits : forall n, 0 <= n ->
     Z.testbit (Iflag t') n = Z.testbit (Iflag t) n && negb (Z.testbit iflag_mask n) /\
     Z.testbit (Oflag t') n = Z.testbit (Oflag t) n && negb (Z.testbit oflag_mask n) /\
     Z.testbit (Lflag t') n = Z.testbit (Lflag t) n && negb (Z.testbit lflag_mask n) /\
     Z.testbit (Cflag t') n
       = (Z.testbit (Cflag t) n && negb (Z.testbit cflag_mask n)) || Z.testbit CS8 n).
  { intros n Hn. unfold t', rawMode. cbn [Iflag Oflag Cflag Lflag].
    rewrite Z.lor_spec, !clear_bits_spec by done. done. }
  assert (Hzero : forall b, 0 <= b -> Z.testbit lflag_mask b = true ->
                            Z.land (Lflag t') (2 ^ b) = 0).
  { intros b Hb Hm. apply Z.bits_inj'. intros n Hn.
    rewrite Z.land_spec, Z.bits_0, Z.pow2_bits_eqb by done.
    destruct (Z.eqb_spec b n) as [<-|]; [|apply andb_false_r].
    destruct (Hbits b Hb) as (_ & _ & -> & _). rewrite Hm.
    by rewrite andb_false_r. }
  split; [exact Hbits|].
  split; [exact (Hzero 3 ltac:(lia) eq_refl)|].
  split; [exact (Hzero 1 ltac:(lia) eq_refl)|].
  split; [exact (Hzero 0 ltac:(lia) eq_refl)|].
  split.
  { apply Z.bits_inj'. intros n Hn. rewrite Z.land_spec.
    destruct (Hbits n Hn) as (_ & _ & _ & ->).
    destruct (Z.testbit CSIZE n) eqn:E; [|by rewrite andb_false_r].
    rewrite andb_true_r.
    change CS8 with CSIZE. rewrite E, orb_true_r. reflexivity. }
  unfold t', rawMode. cbn [Cc Line Ispeed Ospeed].
  split.
  { rewrite list_lookup_insert_ne by (vm_compute; discriminate).
    apply list_lookup_insert_eq. rewrite Hcc. vm_compute. lia. }
  split.
  { apply list_lookup_insert_eq. rewrite length_insert, Hcc. vm_compute. lia. }
  split.
  { intros i H1 H2. by rewrite !list_lookup_insert_ne by done. }
  split; [by rewrite !length_insert|done].
Qed.

End RawMode.

(** ** The further properties at concrete inputs *)

Section MoreWitnesses.
Import image console frame.

Ltac demo_wf :=
  split;
  [ split;
    [ rewrite max_int_val; cbn; lia
    | intros _; unfold width, height; cbn; lia ]
  | unfold allocated; cbn; lia ].

Ltac demo_area :=
  unfold exact_area, Int.in_range; rewrite max_int_val, min_int_val;
  unfold width, height; cbn; lia.

Lemma Fill_reads_witness :
  wf demo_mem demo_frame /\
  exists m', Fill demo_mem demo_frame red_X = Ok m' /\
    At m' demo_frame 2 1 = Ok red_X /\ At m' demo_frame 3 1 = Ok zeroCell.
Proof.
  assert (Hwf : wf demo_mem demo_frame) by demo_wf.
  split; [exact Hwf|].
  destruct (Fill_reads demo_mem demo_frame red_X Hwf) as (m' & E & _ & HA).
  exists m'. split; [exact E|]. split; apply HA.
Defined.

Lemma SubFrame_FillRect_parent_witness :
  let g := Frame_ (Slice_ 4 2) (Rectangle_ (Pt 1 1) (Pt 3 2)) 3 in
  let r := Rectangle_ (Pt (-9) (-9)) (Pt 9 9) in
  wf demo_mem demo_frame /\
  SubFrame demo_frame (Rectangle_ (Pt 1 1) (Pt 5 5)) = Ok g /\
  exists m', FillRect demo_mem g r red_X = Ok m' /\
    At m' demo_frame 1 1 = Ok red_X /\
    At m' demo_frame 0 1 = At demo_mem demo_frame 0 1.
Proof.
  intros g r. assert (Hwf : wf demo_mem demo_frame) by demo_wf.
  split; [exact Hwf|]. split; [reflexivity|].
  destruct (SubFrame_FillRect_parent demo_mem demo_frame
              (Rectangle_ (Pt 1 1) (Pt 5 5)) g r red_X Hwf eq_refl)
    as (m' & E & HA & Hout).
  exists m'. split; [exact E|]. split; [apply HA|].
  apply Hout. reflexivity.
Defined.


Lemma New_exclusive_witness :
  let r := Rectangle_ (Pt 0 0) (Pt 2 2) in
  let m1 := demo_mem ++ replicate 4 zeroCell in
  let f := Frame_ (Slice_ 6 4) r 2 in
  exact_area r /\ New demo_mem r = Ok (m1, f) /\ wf demo_mem demo_frame /\
  exists m3, Set_ m1 f 1 1 red_X = Ok m3 /\
    forall x' y', At m3 demo_frame x' y' = At m1 demo_frame x' y'.
Proof.
  intros r m1 f. assert (Hr : exact_area r) by demo_area.
  assert (Hwf : wf demo_mem demo_frame) by demo_wf.
  split; [exact Hr|]. split; [reflexivity|]. split; [exact Hwf|].
  destruct (New_exclusive demo_mem r m1 f demo_frame m1 1 1 red_X
              Hr eq_refl Hwf (le_n _)) as [H _].
  exact H.
Defined.

Lemma SubFrame_SubFrame_witness :
  let r1 := Rectangle_ (Pt 1 0) (Pt 5 5) in
  let r2 := Rectangle_ (Pt 0 1) (Pt 3 9) in
  let g := Frame_ (Slice_ 1 5) (Rectangle_ (Pt 1 0) (Pt 3 2)) 3 in
  frame_ok demo_frame /\ SubFrame demo_frame r1 = Ok g /\
  SubFrame g r2 = Ok (Frame_ (Slice_ 4 2) (Rectangle_ (Pt 1 1) (Pt 3 2)) 3) /\
  SubFrame g r2 = SubFrame demo_frame (Intersect r2 r1).
Proof.
  intros r1 r2 g. assert (Hwf : wf demo_mem demo_frame) by demo_wf.
  destruct Hwf as [Hok _].
  split; [exact Hok|]. split; [reflexivity|]. split; [reflexivity|].
  exact (SubFrame_SubFrame demo_frame r1 g r2 Hok eq_refl).
Defined.

Lemma SubFrame_self_witness :
  let r := Rectangle_ (Pt (-1) 0) (Pt 3 7) in
  frame_ok demo_frame /\ Empty (Bounds demo_frame) = false /\
  SubFrame demo_frame r = Ok demo_frame.
Proof.
  intros r. assert (Hwf : wf demo_mem demo_frame) by demo_wf.
  destruct Hwf as [Hok _].
  split; [exact Hok|]. split; [reflexivity|].
  apply (SubFrame_self demo_frame r Hok eq_refl).
  intros p Hp. apply In_spec in Hp. apply In_spec. cbn in *. lia.
Defined.

Lemma PutText_writes_witness :
  let red := Color_ 0 RED BLACK in
  let vals := [IString [104; 105]; IColor red; IString [33; 33]] in
  wf demo_mem demo_frame /\
  exists m', PutText demo_mem demo_frame 0 1 vals = Ok m' /\
    At m' demo_frame 1 1 = Ok (Cell_ 105 (Color_ 0 0 0)) /\
    At m' demo_frame 2 1 = Ok (Cell_ 33 red) /\
    At m' demo_frame 2 0 = At demo_mem demo_frame 2 0.
Proof.
  intros red vals. assert (Hwf : wf demo_mem demo_frame) by demo_wf.
  split; [exact Hwf|].
  destruct (PutText_writes demo_mem demo_frame 0 1 vals Hwf) as (m' & E & _ & HA).
  - repeat constructor; discriminate.
  - rewrite min_int_val. lia.
  - rewrite max_int_val. cbn. lia.
  - exists m'. split; [exact E|]. repeat split; apply HA.
Defined.

Lemma Clear_PrintRect_blank_witness :
  wf demo_mem demo_frame /\
  exists m' evs, Clear demo_mem demo_frame = Ok m' /\
    PrintRect_events m' demo_frame demo_rect = Ok evs /\
    Forall blank_event evs.
Proof.
  assert (Hwf : wf demo_mem demo_frame) by demo_wf.
  split; [exact Hwf|].
  destruct (Clear_PrintRect_blank "" demo_mem demo_frame demo_rect Hwf)
    as (m' & evs & E & HE & _ & HF).
  exists m', evs. split; [exact E|]. split; [exact HE|exact HF].
Defined.

Lemma PrintRect_returns_witness :
  wf demo_mem demo_frame /\
  (forall c, c ∈ demo_mem -> valid_color (C c)) /\
  exists out, PrintRect "" demo_mem demo_frame demo_rect = Ok (out, out).
Proof.
  assert (Hwf : wf demo_mem demo_frame) by demo_wf.
  assert (Hm : forall c, c ∈ demo_mem -> valid_color (C c)).
  { intros c Hc. apply elem_of_replicate in Hc as [-> _].
    unfold valid_color. cbn. lia. }
  split; [exact Hwf|]. split; [exact Hm|].
  exact (PrintRect_returns "" demo_mem demo_frame demo_rect Hwf Hm).
Defined.

Lemma rawMode_spec_witness :
  let t := syscall.Termios_ 0x6d02 0x5 0xbf 0x8a3b 0 (replicate 32 3) 15 15 in
  syscall.Lflag (termios.rawMode t) = 0xa30 /\
  syscall.Cc (termios.rawMode t) !! 6%nat = Some 1.
Proof.
  intros t.
  assert (HU : forall z, 0 <= z < 65536 -> Uint32.in_range z).
  { intros z Hz. unfold Uint32.in_range.
    change (2 ^ 32) with 4294967296. lia. }
  destruct (rawMode_spec t) as (_ & _ & _ & _ & _ & H & _);
    try (apply HU; cbn; lia); [reflexivity|].
  split; [reflexivity|exact H].
Defined.

End MoreWitnesses.
